(** * saf.theories: SAT encoding of argumentation frameworks

    A shallow embedding of [src/saf/theories.py]: the label-variable
    allocator with its process-wide memo table, the clause templates of
    the complete semantics, the DIMACS serialiser and the decoders of a
    solver's answer line.

    Python integers are [Z]; Python [str] values are [string] (the text
    handled here is ASCII); the memo dictionary is a [gmap string Z]
    threaded through every call that can touch it. *)

From stdpp Require Import gmap strings list pretty.
From Stdlib Require Import ZArith Ascii.

Local Open Scope Z_scope.

(** ** Labels *)

(** Modelled from the spec: the enumeration [Label] of [saf.argument] is
    imported by [theories.py] but its declaration is not part of the
    sources at hand.  It has exactly three members, [In], [Out] and [Und],
    that behave as integers (the allocator adds a member to a product and
    the decoder strides from [1] by [len(Label)]), with the offsets 1, 2
    and 3. *)
Module Label.

Inductive t : Set := In | Out | Und.

(** The integer a member stands for in arithmetic. *)
Definition value (l : t) : Z :=
  match l with
  | In => 1
  | Out => 2
  | Und => 3
  end.

(** [len(Label)]. *)
Definition len : Z := 3.

(** [str(label)], the member's qualified name.  (From Python 3.11 on an
    integer enumeration prints as its value; the three texts are distinct
    and free of dashes either way, which is all the memo keys need.) *)
Definition str (l : t) : string :=
  match l with
  | In => "Label.In"
  | Out => "Label.Out"
  | Und => "Label.Und"
  end.

#[global] Instance eq_dec : EqDecision t.
Proof. solve_decision. Defined.

End Label.

(** ** A state monad over the memo table *)

(** [_label_var_cache]: a dictionary from string keys to integers. *)
Abbreviation cache := (gmap string Z).

Definition M (A : Type) : Type := cache -> A * cache.

Definition ret {A} (x : A) : M A := fun c => (x, c).

Definition bind {A B} (m : M A) (k : A -> M B) : M B :=
  fun c => let (x, c') := m c in k x c'.

Declare Scope memo_scope.
Delimit Scope memo_scope with memo.
Notation "x <- m ;; k" := (bind m (fun x => k))
  (at level 100, m at next level, right associativity) : memo_scope.

(** A list comprehension whose body runs in the monad, left to right. *)
Fixpoint for_each {A B} (f : A -> M B) (l : list A) : M (list B) :=
  match l with
  | [] => ret []
  | x :: l' =>
      (y <- f x ;; ys <- for_each f l' ;; ret (y :: ys))%memo
  end.

(** ** The label-variable allocator *)

Definition _calculateLabelVar (arg_value : Z) (label : Label.t) : Z :=
  Label.len * (arg_value - 1) + Label.value label.

(** The f-string [f'{str(label)}-{str(arg_value)}']. *)
Definition label_key (arg_value : Z) (label : Label.t) : string :=
  Label.str label +:+ "-" +:+ pretty arg_value.

Definition _argToLabelVar (arg_value : Z) (label : Label.t) : M Z :=
  fun c =>
    let label_key := label_key arg_value label in
    match c !! label_key with
    | None =>
        let label_var := _calculateLabelVar arg_value label in
        (label_var, <[label_key := label_var]> c)
    | Some v => (v, c)
    end.

Definition inLabelVariable (arg_value : Z) : M Z :=
  _argToLabelVar arg_value Label.In.

Definition outLabelVariable (arg_value : Z) : M Z :=
  _argToLabelVar arg_value Label.Out.

Definition undLabelVariable (arg_value : Z) : M Z :=
  _argToLabelVar arg_value Label.Und.

Definition inLab := inLabelVariable.
Definition outLab := outLabelVariable.
Definition undLab := undLabelVariable.

(** The memo tables the program can be in: the empty dictionary the module
    starts with, and whatever a call of the allocator leaves behind. *)
Inductive reachable : gmap string Z -> Prop :=
  | reachable_init : reachable ∅
  | reachable_call c a l :
      reachable c -> reachable (snd (_argToLabelVar a l c)).

(** ** Frameworks *)

(** Modelled from the spec: the class [FrameworkRepresentation] of
    [saf.framework] is not part of the sources at hand.  The encoder uses
    four of its operations: the enumeration of the argument ids, the
    attackers of an argument, the arguments an argument attacks, and the
    number of arguments ([len(framework)]). *)
Record Framework : Type := {
  getArguments : list Z;
  getAttackers : Z -> list Z;
  getAttackedBy : Z -> list Z;
  framework_len : Z
}.

(** Modelled from the spec: what the encoder may assume of a framework.
    The enumeration lists every argument once and [len] counts it, attacks
    relate arguments of the framework, and the two attack queries are two
    views of one relation: [b] is among the attackers of [a] as often as
    [a] is among the arguments attacked by [b]. *)
Record framework_ok (f : Framework) : Prop := {
  ok_len : framework_len f = Z.of_nat (length (getArguments f));
  ok_nodup : NoDup (getArguments f);
  ok_attackers : forall a b,
    a ∈ getArguments f -> b ∈ getAttackers f a -> b ∈ getArguments f;
  ok_attacked : forall a b,
    a ∈ getArguments f -> b ∈ getAttackedBy f a -> b ∈ getArguments f;
  ok_converse : forall a b,
    a ∈ getArguments f -> b ∈ getArguments f ->
    count_occ Z.eq_dec (getAttackers f a) b
    = count_occ Z.eq_dec (getAttackedBy f b) a
}.

(** The total attack-edge count: the attacker-set sizes summed over the
    arguments. *)
Definition edge_count (f : Framework) : Z :=
  Z.of_nat (sum_list ((fun a => length (getAttackers f a)) <$> getArguments f)).

(** ** Theories *)

Definition TheoryRepresentation : Type := list (list Z).
Definition TheoryTemplate : Type := Z -> Framework -> M TheoryRepresentation.

Record CNFTheory : Type := { _template : TheoryTemplate }.

Definition fromTemplates (templates : list TheoryTemplate) : list CNFTheory :=
  (fun template => {| _template := template |}) <$> templates.

Definition generate (self : CNFTheory) (argument_value : Z)
    (framework : Framework) : M TheoryRepresentation :=
  _template self argument_value framework.

(** The loop of [generateAll], [ret_cnf] being the list built so far. *)
Fixpoint generateAll_loop (self : CNFTheory) (framework : Framework)
    (argument_values : list Z) (ret_cnf : TheoryRepresentation)
    : M TheoryRepresentation :=
  match argument_values with
  | [] => ret ret_cnf
  | arg_val :: rest =>
      (new <- generate self arg_val framework ;;
       generateAll_loop self framework rest (ret_cnf ++ new))%memo
  end.

Definition generateAll (self : CNFTheory) (argument_values : list Z)
    (framework : Framework) : M TheoryRepresentation :=
  generateAll_loop self framework argument_values [].

(** ** The templates of the complete semantics *)

Definition uniqueness_theory : TheoryTemplate := fun a _ =>
  (i1 <- inLab a ;; o1 <- outLab a ;; u1 <- undLab a ;;
   i2 <- inLab a ;; o2 <- outLab a ;;
   i3 <- inLab a ;; u3 <- undLab a ;;
   o4 <- outLab a ;; u4 <- undLab a ;;
   ret [[i1; o1; u1]; [- i2; - o2]; [- i3; - u3]; [- o4; - u4]])%memo.

Definition in_complete_1 : TheoryTemplate := fun a f =>
  (outs <- for_each (fun attacker => v <- outLab attacker ;; ret (- v))
             (getAttackers f a) ;;
   i <- inLab a ;;
   ret [outs ++ [i]])%memo.

Definition in_complete_2 : TheoryTemplate := fun a f =>
  for_each (fun attacked =>
              i <- inLab a ;; o <- outLab attacked ;; ret [- i; o])%memo
    (getAttackedBy f a).

Definition out_complete_1 : TheoryTemplate := fun a f =>
  for_each (fun attacker =>
              i <- inLab attacker ;; o <- outLab a ;; ret [- i; o])%memo
    (getAttackers f a).

Definition out_complete_2 : TheoryTemplate := fun a f =>
  (ins <- for_each (fun attacker => inLab attacker) (getAttackers f a) ;;
   o <- outLab a ;;
   ret [ins ++ [- o]])%memo.

(** ** Text *)

Definition newline : string := String "010"%char "".

(** [str(x)] of an integer: its signed decimal numeral. *)
Definition str_int (x : Z) : string := pretty x.

(** [sep.join(parts)]. *)
Fixpoint join (sep : string) (parts : list string) : string :=
  match parts with
  | [] => ""
  | x :: rest =>
      match rest with
      | [] => x
      | _ :: _ => x +:+ sep +:+ join sep rest
      end
  end.

(** [s.split(' ')]: cut at every single space; empty pieces are kept. *)
Fixpoint split_space (s : string) : list string :=
  match s with
  | EmptyString => [""]
  | String c s' =>
      if Ascii.eqb c " " then "" :: split_space s'
      else match split_space s' with
           | [] => [String c ""]
           | t :: ts => String c t :: ts
           end
  end.

(** [l[1:-1]]. *)
Definition slice_1_m1 {A} (l : list A) : list A := removelast (tail l).

(** *** [int(token)] on ASCII text

    Blanks (tab, line feed, vertical tab, form feed, carriage return and
    space) are stripped at both ends, one sign may lead, and the decimal
    digits, of which there is at least one, may be grouped by single
    underscores placed between digits.  Anything else is no integer and
    makes [int] raise [ValueError]: [None] here.  Digits and blanks
    outside ASCII are not modelled. *)

Definition is_space (c : ascii) : bool :=
  let n := N_of_ascii c in
  ((9 <=? n)%N && (n <=? 13)%N) || (n =? 32)%N.

Definition digit_of (c : ascii) : option Z :=
  let n := N_of_ascii c in
  if ((48 <=? n)%N && (n <=? 57)%N) then Some (Z.of_N n - 48) else None.

Fixpoint lstrip (s : string) : string :=
  match s with
  | EmptyString => ""
  | String c s' => if is_space c then lstrip s' else s
  end.

Fixpoint rstrip (s : string) : string :=
  match s with
  | EmptyString => ""
  | String c s' =>
      match rstrip s' with
      | EmptyString => if is_space c then "" else String c ""
      | r => String c r
      end
  end.

(** The digits after the sign: [acc] is the value read so far and
    [after_digit] says whether the previous character was a digit. *)
Fixpoint digits (s : string) (acc : Z) (after_digit : bool) : option Z :=
  match s with
  | EmptyString => if after_digit then Some acc else None
  | String c s' =>
      match digit_of c with
      | Some d => digits s' (10 * acc + d) true
      | None =>
          if Ascii.eqb c "_" && after_digit then digits s' acc false
          else None
      end
  end.

Definition py_int (token : string) : option Z :=
  match rstrip (lstrip token) with
  | String "+" r => digits r 0 false
  | String "-" r => Z.opp <$> digits r 0 false
  | t => digits t 0 false
  end.

(** ** Exceptions *)

Inductive exn : Set := ValueError.

Inductive result (A : Type) : Type :=
  | Ok (x : A)
  | Raise (e : exn).
Arguments Ok {A} x.
Arguments Raise {A} e.

(** ** DIMACS *)

Record DIMACSHeader : Type := {
  _vars : Z;
  _clauses : Z
}.

Definition DIMACSHeader_str (self : DIMACSHeader) : string :=
  "p cnf " +:+ str_int (_vars self) +:+ " " +:+ str_int (_clauses self)
  +:+ newline.

Definition incrementClauses (self : DIMACSHeader) : DIMACSHeader :=
  {| _vars := _vars self; _clauses := _clauses self + 1 |}.

Definition setClauses (self : DIMACSHeader) (num_of_clauses : Z)
    : DIMACSHeader :=
  {| _vars := _vars self; _clauses := num_of_clauses |}.

Record DIMACSInput : Type := {
  _header : DIMACSHeader;
  _content : string
}.

Definition DIMACSInput_init (num_of_vars num_of_clauses : Z)
    (content : string) : DIMACSInput :=
  {| _header := {| _vars := num_of_vars; _clauses := num_of_clauses |};
     _content := content |}.

Definition DIMACSInput_str (self : DIMACSInput) : string :=
  DIMACSHeader_str (_header self) +:+ _content self.

Definition addClause (self : DIMACSInput) (dimacs_clause : string)
    : DIMACSInput :=
  {| _header := incrementClauses (_header self);
     _content := _content self +:+ dimacs_clause |}.

Record DIMACSParser : Type := { _theories : list CNFTheory }.

(** One line of the body, without its line end. *)
Definition clause_line (clause : list Z) : string :=
  join " " (str_int <$> clause) +:+ " 0".

Definition parseCNFTheory (theory : TheoryRepresentation) : string :=
  join newline (clause_line <$> theory) +:+ newline.

(** The loop of [parse] over the theories, with its two accumulators. *)
Fixpoint parse_loop (theories : list CNFTheory) (framework : Framework)
    (argument_values : list Z) (num_of_clauses : Z)
    (raw_clauses : TheoryRepresentation) : M (Z * TheoryRepresentation) :=
  match theories with
  | [] => ret (num_of_clauses, raw_clauses)
  | theory :: rest =>
      (new_clauses <- generateAll theory argument_values framework ;;
       parse_loop rest framework argument_values
         (num_of_clauses + Z.of_nat (length new_clauses))
         (raw_clauses ++ new_clauses))%memo
  end.

Definition parse (self : DIMACSParser) (framework : Framework)
    : M DIMACSInput :=
  let num_of_vars := framework_len framework * Label.len in
  let argument_values := getArguments framework in
  (r <- parse_loop (_theories self) framework argument_values 0 [] ;;
   let dimacs_content := parseCNFTheory (snd r) in
   ret (DIMACSInput_init num_of_vars (fst r) dimacs_content))%memo.

(** [x in range(start, stop, step)] for a positive [step]. *)
Definition in_range (start stop step x : Z) : bool :=
  (start <=? x) && (x <? stop) && ((x - start) mod step =? 0).

(** The integers of the answer line: [int] over the tokens between the
    first and the last one; the first token that is no integer raises. *)
Definition read_model (sat_output : string) : result (list Z) :=
  match mapM py_int (slice_1_m1 (split_space sat_output)) with
  | Some model => Ok model
  | None => Raise ValueError
  end.

Definition extractExtention (sat_output : string) : result (list Z) :=
  match read_model sat_output with
  | Ok model =>
      Ok (List.filter
            (fun lab_var =>
               (0 <? lab_var)
               && in_range 1 (Z.of_nat (length model)) Label.len
                    (Z.abs lab_var))
            model)
  | Raise e => Raise e
  end.

Definition extractLabeling (sat_output : string) : result (list Z) :=
  match read_model sat_output with
  | Ok model => Ok (List.filter (fun x => 0 <? x) model)
  | Raise e => Raise e
  end.

Definition CompleteLabelingDIMACSParser : DIMACSParser :=
  {| _theories := fromTemplates [uniqueness_theory; in_complete_1;
                                 in_complete_2; out_complete_1;
                                 out_complete_2] |}.

(** ** Specification-level counterparts *)

(** The variable of "argument [a] has label [l]", as a plain function. *)
Definition var (a : Z) (l : Label.t) : Z := 3 * (a - 1) + Label.value l.

(** What the templates compute, without the memo table. *)
Definition uniqueness_clauses (a : Z) : TheoryRepresentation :=
  [[var a Label.In; var a Label.Out; var a Label.Und];
   [- var a Label.In; - var a Label.Out];
   [- var a Label.In; - var a Label.Und];
   [- var a Label.Out; - var a Label.Und]].

Definition in_1_clauses (a : Z) (f : Framework) : TheoryRepresentation :=
  [((fun b => - var b Label.Out) <$> getAttackers f a) ++ [var a Label.In]].

Definition in_2_clauses (a : Z) (f : Framework) : TheoryRepresentation :=
  (fun c => [- var a Label.In; var c Label.Out]) <$> getAttackedBy f a.

Definition out_1_clauses (a : Z) (f : Framework) : TheoryRepresentation :=
  (fun b => [- var b Label.In; var a Label.Out]) <$> getAttackers f a.

Definition out_2_clauses (a : Z) (f : Framework) : TheoryRepresentation :=
  [((fun b => var b Label.In) <$> getAttackers f a) ++ [- var a Label.Out]].

(** A template that leaves the memo table sound and whose clauses do not
    depend on it: [pure] gives the clauses. *)
Definition memo_sound (c : gmap string Z) : Prop :=
  forall a l v, c !! label_key a l = Some v -> v = var a l.

Definition computes {A} (m : M A) (x : A) : Prop :=
  forall c, memo_sound c -> fst (m c) = x /\ memo_sound (snd (m c)).

(** A theory paired with the clause function it computes. *)
Definition computed_by (f : Framework) (theory : CNFTheory)
    (p : Z -> Framework -> TheoryRepresentation) : Prop :=
  forall a, computes (_template theory a f) (p a f).

(** The clause list [parse] serialises, as a plain function of the
    templates' clause functions: theory by theory, argument by argument. *)
Definition all_clauses (pures : list (Z -> Framework -> TheoryRepresentation))
    (f : Framework) : TheoryRepresentation :=
  concat ((fun p => concat ((fun a => p a f) <$> getArguments f)) <$> pures).

Definition complete_clauses (f : Framework) : TheoryRepresentation :=
  all_clauses [fun a _ => uniqueness_clauses a; in_1_clauses; in_2_clauses;
               out_1_clauses; out_2_clauses] f.

(** Truth of a literal, a clause and a clause list under an assignment of
    the variables. *)
Definition lit_true (rho : Z -> bool) (lit : Z) : bool :=
  if 0 <? lit then rho lit else negb (rho (- lit)).

Definition clause_true (rho : Z -> bool) (clause : list Z) : bool :=
  existsb (lit_true rho) clause.

Definition cnf_true (rho : Z -> bool) (cnf : TheoryRepresentation) : bool :=
  forallb (clause_true rho) cnf.

(** The body the wire format asks for: every clause on a line of its own,
    each line ended by a line feed. *)
Definition body_lines (theory : TheoryRepresentation) : string :=
  fold_right (fun clause rest => clause_line clause +:+ newline +:+ rest)
    "" theory.

(** The extension a model stands for, in the words of the specification:
    the positive variables that sit at the [In] offset, each mapped back
    to its argument id. *)
Definition is_In_var (v : Z) : bool := (v - Label.value Label.In) mod 3 =? 0.

Definition arg_of_var (v : Z) : Z := (v - 1) / 3 + 1.

Definition extension_of_model (model : list Z) : list Z :=
  arg_of_var <$> List.filter (fun v => (0 <? v) && is_In_var v) model.

(** The labeling in the words of the specification: of the tokens between
    the first and the last one, those that parse as positive integers, in
    order; a token that is no integer is passed over. *)
Definition positive_tokens (sat_output : string) : list Z :=
  List.filter (fun x => 0 <? x)
    (omap py_int (slice_1_m1 (split_space sat_output))).

(** A solver's answer line for a model: a status marker, the signed
    variables, and the closing [0]. *)
Definition answer_line (status : string) (model : list Z) : string :=
  status +:+ " " +:+ join " " (str_int <$> model) +:+ " 0".

(** ** Sample frameworks *)

(** Arguments 1 and 2, and the one attack of 1 on 2. *)
Definition two_args : Framework :=
  {| getArguments := [1; 2];
     getAttackers := fun a => if a =? 2 then [1] else [];
     getAttackedBy := fun a => if a =? 1 then [2] else [];
     framework_len := 2 |}.

(** No argument at all. *)
Definition no_args : Framework :=
  {| getArguments := [];
     getAttackers := fun _ => [];
     getAttackedBy := fun _ => [];
     framework_len := 0 |}.

(** ** The rest of the module and what its properties speak of *)

(** [CNFTheory.fromTemplateList]: as [fromTemplates], the templates being
    passed as one list. *)
Definition fromTemplateList (templates : list TheoryTemplate)
    : list CNFTheory :=
  (fun template => {| _template := template |}) <$> templates.

(** Building a problem clause by clause: [addClause] for every line, in
    order. *)
Definition addClauses (self : DIMACSInput) (dimacs_clauses : list string)
    : DIMACSInput :=
  fold_left addClause dimacs_clauses self.

(** "Argument [a] has label [l]" under an assignment. *)
Definition labelled (rho : Z -> bool) (a : Z) (l : Label.t) : Prop :=
  rho (var a l) = true.

Definition one_label (rho : Z -> bool) (a : Z) : Prop :=
  (labelled rho a Label.In /\ ~ labelled rho a Label.Out
   /\ ~ labelled rho a Label.Und)
  \/ (~ labelled rho a Label.In /\ labelled rho a Label.Out
      /\ ~ labelled rho a Label.Und)
  \/ (~ labelled rho a Label.In /\ ~ labelled rho a Label.Out
      /\ labelled rho a Label.Und).

(** What the five templates say of an argument, read as conditions on the
    labels. *)
Definition in_1_holds (rho : Z -> bool) (f : Framework) (a : Z) : Prop :=
  (forall b, b ∈ getAttackers f a -> labelled rho b Label.Out) ->
  labelled rho a Label.In.

Definition in_2_holds (rho : Z -> bool) (f : Framework) (a : Z) : Prop :=
  labelled rho a Label.In ->
  forall b, b ∈ getAttackedBy f a -> labelled rho b Label.Out.

Definition out_1_holds (rho : Z -> bool) (f : Framework) (a : Z) : Prop :=
  forall b, b ∈ getAttackers f a -> labelled rho b Label.In ->
  labelled rho a Label.Out.

Definition out_2_holds (rho : Z -> bool) (f : Framework) (a : Z) : Prop :=
  labelled rho a Label.Out ->
  exists b, b ∈ getAttackers f a /\ labelled rho b Label.In.

(** Frameworks all of whose ids (arguments, attackers, attacked arguments)
    pass a test: being 1 or more, or running from 1 to [len]. *)
Definition ids_within (f : Framework) (inside : Z -> Prop) : Prop :=
  forall a, a ∈ getArguments f ->
    inside a
    /\ (forall b, b ∈ getAttackers f a -> inside b)
    /\ (forall b, b ∈ getAttackedBy f a -> inside b).

Definition positive_ids (f : Framework) : Prop :=
  ids_within f (fun x => 1 <= x).

Definition dense_ids (f : Framework) : Prop :=
  ids_within f (fun x => 1 <= x <= framework_len f).

(** The model a solver prints for a labelling: for every argument, in
    order, its three variables, the one of its label positive. *)
Definition signed (positive : bool) (v : Z) : Z := if positive then v else - v.

Definition model_of (lab : Z -> Label.t) (args : list Z) : list Z :=
  concat ((fun a =>
             [signed (bool_decide (lab a = Label.In)) (var a Label.In);
              signed (bool_decide (lab a = Label.Out)) (var a Label.Out);
              signed (bool_decide (lab a = Label.Und)) (var a Label.Und)])
            <$> args).

(** Every character of a text passes a test. *)
Fixpoint all_chars (p : ascii -> bool) (s : string) : bool :=
  match s with
  | EmptyString => true
  | String ch s' => p ch && all_chars p s'
  end.

Definition no_space (s : string) : bool :=
  all_chars (fun ch => negb (Ascii.eqb ch " ")) s.

Definition is_digit (ch : ascii) : bool :=
  match digit_of ch with Some _ => true | None => false end.

Definition not_blank (ch : ascii) : bool := negb (is_space ch).

(** Argument 1 attacks itself and argument 2. *)
Definition self_attacker : Framework :=
  {| getArguments := [1; 2];
     getAttackers := fun a => if (a =? 1) || (a =? 2) then [1] else [];
     getAttackedBy := fun a => if a =? 1 then [1; 2] else [];
     framework_len := 2 |}.

(** * Properties *)

(** ** The allocator and its memo table *)

Lemma calculateLabelVar_var a l : _calculateLabelVar a l = var a l.
Proof. reflexivity. Qed.

Lemma label_key_inj a l a' l' :
  label_key a l = label_key a' l' -> a = a' /\ l = l'.
Proof.
  unfold label_key.
  destruct l, l'; simpl; intros H; try discriminate H;
    (split; [| reflexivity]); injection H as H;
    exact (inj pretty _ _ H).
Qed.

Lemma var_inj a l a' l' : var a l = var a' l' -> a = a' /\ l = l'.
Proof. unfold var. destruct l, l'; simpl; intros H; split; (lia || f_equal). Qed.

Lemma var_positive a l : 1 <= a -> 0 < var a l.
Proof. unfold var. destruct l; simpl; lia. Qed.

Lemma var_nonpositive a l : a < 1 -> var a l <= 0.
Proof. unfold var. destruct l; simpl; lia. Qed.

Lemma memo_sound_empty : memo_sound ∅.
Proof. intros a l v H. rewrite lookup_empty in H. discriminate. Qed.

Lemma argToLabelVar_computes a l : computes (_argToLabelVar a l) (var a l).
Proof.
  intros c Hc. unfold _argToLabelVar.
  destruct (c !! label_key a l) as [v|] eqn:E; simpl.
  - split; [exact (Hc _ _ _ E) | exact Hc].
  - split; [reflexivity |].
    intros a' l' v. destruct (decide (label_key a l = label_key a' l')) as [K|K].
    + rewrite K, lookup_insert_eq. apply label_key_inj in K as [-> ->].
      intros [= <-]. reflexivity.
    + rewrite lookup_insert_ne by exact K. apply Hc.
Qed.

Lemma reachable_sound c : reachable c -> memo_sound c.
Proof.
  induction 1 as [|c a l _ IH]; [exact memo_sound_empty |].
  exact (proj2 (argToLabelVar_computes a l c IH)).
Qed.

(** A second call finds the entry the first one left. *)
Lemma argToLabelVar_hit a l c :
  snd (_argToLabelVar a l c) !! label_key a l
  = Some (fst (_argToLabelVar a l c)).
Proof.
  unfold _argToLabelVar.
  destruct (c !! label_key a l) as [v|] eqn:E; simpl;
    [exact E | apply lookup_insert_eq].
Qed.

Lemma argToLabelVar_idle a l c :
  _argToLabelVar a l (snd (_argToLabelVar a l c))
  = (fst (_argToLabelVar a l c), snd (_argToLabelVar a l c)).
Proof.
  unfold _argToLabelVar at 1. rewrite argToLabelVar_hit. reflexivity.
Qed.

(** ** The monad *)

Lemma computes_ret {A} (x : A) : computes (ret x) x.
Proof. intros c Hc. split; [reflexivity | exact Hc]. Qed.

Lemma computes_bind {A B} (m : M A) (k : A -> M B) x y :
  computes m x -> computes (k x) y -> computes (bind m k) y.
Proof.
  intros Hm Hk c Hc. unfold bind.
  destruct (Hm c Hc) as [H1 H2]. destruct (m c) as [x' c']; simpl in *.
  subst x'. exact (Hk c' H2).
Qed.

Lemma computes_for_each {A B} (f : A -> M B) (g : A -> B) l :
  (forall x, computes (f x) (g x)) -> computes (for_each f l) (g <$> l).
Proof.
  intros Hf. induction l as [|x l IH]; simpl.
  - apply computes_ret.
  - eapply computes_bind; [apply Hf |].
    eapply computes_bind; [apply IH |]. apply computes_ret.
Qed.

Lemma inLab_computes a : computes (inLab a) (var a Label.In).
Proof. apply argToLabelVar_computes. Qed.

Lemma outLab_computes a : computes (outLab a) (var a Label.Out).
Proof. apply argToLabelVar_computes. Qed.

Lemma undLab_computes a : computes (undLab a) (var a Label.Und).
Proof. apply argToLabelVar_computes. Qed.

Create HintDb memo.
#[local] Hint Resolve inLab_computes outLab_computes undLab_computes
  computes_ret : memo.

Ltac step_memo :=
  repeat (eapply computes_bind; [solve [eauto with memo] |]);
  try apply computes_ret.

(** ** The templates *)

Lemma uniqueness_theory_computes a f :
  computes (uniqueness_theory a f) (uniqueness_clauses a).
Proof. unfold uniqueness_theory, uniqueness_clauses. step_memo. Qed.

Lemma in_complete_1_computes a f :
  computes (in_complete_1 a f) (in_1_clauses a f).
Proof.
  unfold in_complete_1, in_1_clauses.
  eapply computes_bind.
  - apply (computes_for_each _ (fun b => - var b Label.Out)).
    intros b. step_memo.
  - step_memo.
Qed.

Lemma in_complete_2_computes a f :
  computes (in_complete_2 a f) (in_2_clauses a f).
Proof.
  unfold in_complete_2, in_2_clauses.
  apply (computes_for_each _ (fun c => [- var a Label.In; var c Label.Out])).
  intros b. step_memo.
Qed.

Lemma out_complete_1_computes a f :
  computes (out_complete_1 a f) (out_1_clauses a f).
Proof.
  unfold out_complete_1, out_1_clauses.
  apply (computes_for_each _ (fun b => [- var b Label.In; var a Label.Out])).
  intros b. step_memo.
Qed.

Lemma out_complete_2_computes a f :
  computes (out_complete_2 a f) (out_2_clauses a f).
Proof.
  unfold out_complete_2, out_2_clauses.
  eapply computes_bind.
  - apply (computes_for_each _ (fun b => var b Label.In)).
    intros b. apply inLab_computes.
  - step_memo.
Qed.

(** ** The loops of [generateAll] and [parse] *)

Lemma generateAll_loop_computes self f p args acc :
  (forall a, computes (_template self a f) (p a f)) ->
  computes (generateAll_loop self f args acc)
    (acc ++ concat ((fun a => p a f) <$> args)).
Proof.
  intros Hp. revert acc. induction args as [|a args IH]; intros acc; simpl.
  - rewrite app_nil_r. apply computes_ret.
  - eapply computes_bind; [apply Hp |].
    rewrite app_assoc. apply IH.
Qed.

Lemma generateAll_computes self f p args :
  (forall a, computes (_template self a f) (p a f)) ->
  computes (generateAll self args f) (concat ((fun a => p a f) <$> args)).
Proof. intros Hp. apply (generateAll_loop_computes self f p args [] Hp). Qed.

Lemma parse_loop_computes f theories pures args n acc :
  Forall2 (computed_by f) theories pures ->
  let new :=
    concat ((fun p => concat ((fun a => p a f) <$> args)) <$> pures) in
  computes (parse_loop theories f args n acc)
    (n + Z.of_nat (length new), acc ++ new).
Proof.
  intros H. revert n acc.
  induction H as [|th p ths ps Hp _ IH]; intros n acc; simpl.
  - rewrite Z.add_0_r, app_nil_r. apply computes_ret.
  - eapply computes_bind; [apply generateAll_computes, Hp |].
    rewrite length_app, Nat2Z.inj_add, Z.add_assoc, app_assoc. apply IH.
Qed.

Lemma complete_theories_computed f :
  Forall2 (computed_by f) (_theories CompleteLabelingDIMACSParser)
    [fun a _ => uniqueness_clauses a; in_1_clauses; in_2_clauses;
     out_1_clauses; out_2_clauses].
Proof.
  unfold CompleteLabelingDIMACSParser, fromTemplates; simpl.
  repeat (apply List.Forall2_cons; [intros a |]); [.. | apply List.Forall2_nil].
  - apply uniqueness_theory_computes.
  - apply in_complete_1_computes.
  - apply in_complete_2_computes.
  - apply out_complete_1_computes.
  - apply out_complete_2_computes.
Qed.

Lemma parse_computes (self : DIMACSParser) f pures :
  Forall2 (computed_by f) (_theories self) pures ->
  computes (parse self f)
    (DIMACSInput_init (framework_len f * Label.len)
       (Z.of_nat (length (all_clauses pures f)))
       (parseCNFTheory (all_clauses pures f))).
Proof.
  intros H. unfold parse.
  eapply computes_bind.
  - apply (parse_loop_computes f _ _ (getArguments f) 0 [] H).
  - simpl. apply computes_ret.
Qed.

Lemma parse_complete_computes f :
  computes (parse CompleteLabelingDIMACSParser f)
    (DIMACSInput_init (framework_len f * Label.len)
       (Z.of_nat (length (complete_clauses f)))
       (parseCNFTheory (complete_clauses f))).
Proof. apply parse_computes, complete_theories_computed. Qed.

(** ** Counting clauses *)

Lemma length_concat_sum {A} (ls : list (list A)) :
  length (concat ls) = sum_list (length <$> ls).
Proof.
  induction ls as [|l ls IH]; csimpl; [reflexivity |].
  rewrite length_app, IH. reflexivity.
Qed.

Lemma sum_list_fmap_add {A} (g h : A -> nat) (l : list A) :
  sum_list ((fun x => g x + h x)%nat <$> l)
  = (sum_list (g <$> l) + sum_list (h <$> l))%nat.
Proof. induction l as [|x l IH]; csimpl; [reflexivity | rewrite IH; lia]. Qed.

Lemma sum_list_fmap_ext_in {A} (g h : A -> nat) (l : list A) :
  (forall x, x ∈ l -> g x = h x) -> sum_list (g <$> l) = sum_list (h <$> l).
Proof.
  induction l as [|x l IH]; intros E; csimpl; [reflexivity |].
  rewrite (E x) by left. rewrite IH; [reflexivity |].
  intros y Hy. apply E. right. exact Hy.
Qed.

Lemma sum_list_fmap_zero {A} (l : list A) :
  sum_list ((fun _ => 0%nat) <$> l) = 0%nat.
Proof. induction l; csimpl; auto. Qed.

(** Summing over two lists in either order. *)
Lemma sum_list_swap {A B} (g : A -> B -> nat) (s : list A) (t : list B) :
  sum_list ((fun a => sum_list ((fun b => g a b) <$> t)) <$> s)
  = sum_list ((fun b => sum_list ((fun a => g a b) <$> s)) <$> t).
Proof.
  induction s as [|a s IH]; csimpl.
  - symmetry. apply sum_list_fmap_zero.
  - rewrite IH. symmetry.
    apply (sum_list_fmap_add (fun b => g a b)
             (fun b => sum_list ((fun a => g a b) <$> s))).
Qed.

(** In a duplicate-free list an element that occurs is counted once. *)
Lemma sum_indicator (s : list Z) (x : Z) :
  NoDup s -> x ∈ s ->
  sum_list ((fun b => if Z.eq_dec x b then 1 else 0)%nat <$> s) = 1%nat.
Proof.
  induction 1 as [|y s Hy Hs IH]; intros Hx.
  - inversion Hx.
  - csimpl. destruct (Z.eq_dec x y) as [->|Hne].
    + rewrite (sum_list_fmap_ext_in _ (fun _ => 0%nat)).
      * rewrite sum_list_fmap_zero. reflexivity.
      * intros z Hz. destruct (Z.eq_dec y z) as [->|]; [contradiction | done].
    + apply IH. inversion Hx; subst; [contradiction | assumption].
Qed.

(** The length of a list, as the sum of the occurrence counts of the
    elements of a duplicate-free list that covers it. *)
Lemma length_by_count (s l : list Z) :
  NoDup s -> (forall x, x ∈ l -> x ∈ s) ->
  length l = sum_list ((fun b => count_occ Z.eq_dec l b) <$> s).
Proof.
  intros Hs. induction l as [|x l IH]; intros Hl; csimpl.
  - symmetry. apply sum_list_fmap_zero.
  - rewrite (sum_list_fmap_ext_in _
      (fun b => ((if Z.eq_dec x b then 1 else 0)
                 + count_occ Z.eq_dec l b)%nat)).
    + rewrite sum_list_fmap_add, sum_indicator by (auto; apply Hl; left).
      simpl. f_equal. apply IH. intros y Hy. apply Hl. right. exact Hy.
    + intros b _. destruct (Z.eq_dec x b); reflexivity.
Qed.

(** Every attack is seen once from its target and once from its source. *)
Lemma attacks_counted_twice f :
  framework_ok f ->
  sum_list ((fun a => length (getAttackedBy f a)) <$> getArguments f)
  = sum_list ((fun a => length (getAttackers f a)) <$> getArguments f).
Proof.
  intros [_ Hnd Hatt Hby Hconv].
  rewrite (sum_list_fmap_ext_in _
    (fun a => sum_list ((fun b => count_occ Z.eq_dec (getAttackedBy f a) b)
                          <$> getArguments f))).
  2:{ intros a Ha. apply length_by_count; [exact Hnd | eauto]. }
  rewrite sum_list_swap.
  apply sum_list_fmap_ext_in. intros b Hb.
  rewrite (length_by_count (getArguments f)); [| exact Hnd | eauto].
  apply sum_list_fmap_ext_in. intros a Ha.
  symmetry. apply Hconv; assumption.
Qed.

Lemma count_uniqueness f :
  length (concat ((fun a => uniqueness_clauses a) <$> getArguments f))
  = (4 * length (getArguments f))%nat.
Proof.
  rewrite length_concat_sum, <- list_fmap_compose.
  rewrite (sum_list_fmap_same 4); [lia |]. apply Forall_true. reflexivity.
Qed.

Lemma count_in_1 f :
  length (concat ((fun a => in_1_clauses a f) <$> getArguments f))
  = length (getArguments f).
Proof.
  rewrite length_concat_sum, <- list_fmap_compose.
  rewrite (sum_list_fmap_same 1); [lia |]. apply Forall_true. reflexivity.
Qed.

Lemma count_out_2 f :
  length (concat ((fun a => out_2_clauses a f) <$> getArguments f))
  = length (getArguments f).
Proof.
  rewrite length_concat_sum, <- list_fmap_compose.
  rewrite (sum_list_fmap_same 1); [lia |]. apply Forall_true. reflexivity.
Qed.

Lemma count_out_1 f :
  length (concat ((fun a => out_1_clauses a f) <$> getArguments f))
  = sum_list ((fun a => length (getAttackers f a)) <$> getArguments f).
Proof.
  rewrite length_concat_sum, <- list_fmap_compose.
  apply sum_list_fmap_ext_in. intros a _. simpl.
  unfold out_1_clauses. apply length_fmap.
Qed.

Lemma count_in_2 f :
  length (concat ((fun a => in_2_clauses a f) <$> getArguments f))
  = sum_list ((fun a => length (getAttackedBy f a)) <$> getArguments f).
Proof.
  rewrite length_concat_sum, <- list_fmap_compose.
  apply sum_list_fmap_ext_in. intros a _. simpl.
  unfold in_2_clauses. apply length_fmap.
Qed.

Lemma count_complete f :
  framework_ok f ->
  Z.of_nat (length (complete_clauses f))
  = 6 * Z.of_nat (length (getArguments f)) + 2 * edge_count f.
Proof.
  intros Hok. unfold complete_clauses, all_clauses, edge_count. simpl.
  rewrite !length_app, count_uniqueness, count_in_1, count_in_2,
    count_out_1, count_out_2, (attacks_counted_twice f Hok).
  simpl. lia.
Qed.

(** ** Reading the solver's answer *)

Lemma slice_1_m1_middle {A} (first last : A) (mids : list A) :
  slice_1_m1 (first :: mids ++ [last]) = mids.
Proof. unfold slice_1_m1. simpl. apply removelast_last. Qed.

Lemma read_model_Ok out model :
  read_model out = Ok model
  <-> Forall2 (fun t z => py_int t = Some z)
        (slice_1_m1 (split_space out)) model.
Proof.
  unfold read_model. rewrite <- mapM_Some.
  destruct (mapM py_int (slice_1_m1 (split_space out))); split;
    intros H; try discriminate H; congruence.
Qed.

Lemma read_model_length out model :
  read_model out = Ok model ->
  length model = length (slice_1_m1 (split_space out)).
Proof. intros H. symmetry. apply read_model_Ok, Forall2_length in H. exact H. Qed.

Lemma read_model_Raise out tok :
  tok ∈ slice_1_m1 (split_space out) -> py_int tok = None ->
  read_model out = Raise ValueError.
Proof.
  intros Hin Hno. unfold read_model.
  rewrite (mapM_None_2 py_int); [reflexivity |].
  apply Exists_exists. exists tok. split; assumption.
Qed.

(** The test of [extractExtention] on one entry of a model of [M] entries:
    positive, at an [In] offset, and below [M]. *)
Lemma extension_test M v :
  (0 <? v) && in_range 1 M Label.len (Z.abs v)
  = (0 <? v) && is_In_var v && (v <? M).
Proof.
  unfold in_range, is_In_var, Label.len. simpl Label.value.
  destruct (Z.ltb_spec 0 v) as [Hv|Hv]; simpl; [| reflexivity].
  rewrite Z.abs_eq by lia.
  destruct (Z.leb_spec 1 v); [| lia]. simpl.
  apply andb_comm.
Qed.

Lemma extension_test_true M v :
  (0 <? v) && in_range 1 M Label.len (Z.abs v) = true
  <-> 1 <= v < M /\ (v - 1) mod 3 = 0.
Proof.
  rewrite extension_test. unfold is_In_var. simpl Label.value.
  rewrite !andb_true_iff, !Z.ltb_lt, Z.eqb_eq. lia.
Qed.

Lemma var_arg_of_var v : (v - 1) mod 3 = 0 -> var (arg_of_var v) Label.In = v.
Proof.
  intros H. unfold var, arg_of_var. simpl.
  pose proof (Z.div_mod (v - 1) 3 ltac:(lia)). lia.
Qed.

Lemma arg_of_var_var a : arg_of_var (var a Label.In) = a.
Proof.
  unfold var, arg_of_var. simpl.
  replace (3 * (a - 1) + 1 - 1) with ((a - 1) * 3) by lia.
  rewrite Z.div_mul by lia. lia.
Qed.

Lemma extractExtention_Ok out model :
  read_model out = Ok model ->
  extractExtention out
  = Ok (List.filter
          (fun v => (0 <? v) && is_In_var v
                    && (v <? Z.of_nat (length model))) model).
Proof.
  intros H. unfold extractExtention. rewrite H. f_equal.
  apply filter_ext. intros v. apply extension_test.
Qed.

Lemma extractExtention_inv out ext :
  extractExtention out = Ok ext ->
  exists model, read_model out = Ok model
    /\ ext = List.filter
               (fun v => (0 <? v)
                         && in_range 1 (Z.of_nat (length model)) Label.len
                              (Z.abs v)) model.
Proof.
  unfold extractExtention. destruct (read_model out) as [model|e]; intros H.
  - exists model. split; [reflexivity | congruence].
  - discriminate H.
Qed.

(** ** The text of a problem *)

Lemma string_app_assoc (s1 s2 s3 : string) :
  (s1 +:+ s2) +:+ s3 = s1 +:+ s2 +:+ s3.
Proof.
  induction s1 as [|ch s1 IH]; [reflexivity |].
  change (String ch ((s1 +:+ s2) +:+ s3) = String ch (s1 +:+ s2 +:+ s3)).
  f_equal. exact IH.
Qed.

(** With at least one clause, joining the lines by line feeds and adding
    a last line feed ends every line. *)
Lemma parseCNFTheory_lines theory :
  theory <> [] -> parseCNFTheory theory = body_lines theory.
Proof.
  unfold parseCNFTheory. induction theory as [|cl rest IH]; [congruence |].
  intros _. destruct rest as [|cl' rest].
  - reflexivity.
  - change (join newline (clause_line <$> cl :: cl' :: rest))
      with (clause_line cl +:+ newline
            +:+ join newline (clause_line <$> cl' :: rest)).
    rewrite !string_app_assoc, IH by congruence. reflexivity.
Qed.

(** The counter of [parse] grows by the number of clauses added. *)
Lemma parse_loop_count theories f args n acc c :
  fst (fst (parse_loop theories f args n acc c))
  - Z.of_nat (length (snd (fst (parse_loop theories f args n acc c))))
  = n - Z.of_nat (length acc).
Proof.
  revert n acc c. induction theories as [|th ths IH]; intros n acc c; simpl.
  - reflexivity.
  - unfold bind. destruct (generateAll th args f c) as [new c'].
    rewrite IH, length_app. lia.
Qed.

(** The text of any problem [parse] builds: the header with the number of
    clauses serialised after it, then [parseCNFTheory] of these clauses. *)
Lemma parse_text (self : DIMACSParser) f c :
  let raw := snd (fst (parse_loop (_theories self) f (getArguments f) 0 [] c)) in
  DIMACSInput_str (fst (parse self f c))
  = "p cnf " +:+ str_int (framework_len f * 3) +:+ " "
    +:+ str_int (Z.of_nat (length raw)) +:+ newline +:+ parseCNFTheory raw.
Proof.
  intros raw. unfold parse, bind.
  pose proof (parse_loop_count (_theories self) f (getArguments f) 0 [] c) as Hn.
  fold raw in Hn. subst raw.
  destruct (parse_loop (_theories self) f (getArguments f) 0 [] c)
    as [[n raw] c']; simpl in *.
  replace n with (Z.of_nat (length raw)) by lia.
  unfold DIMACSInput_str, DIMACSHeader_str; simpl.
  rewrite !string_app_assoc. reflexivity.
Qed.

(** * The claims *)

(** ** The allocator *)

(** C2: on every memo table the program can reach, the allocator returns
    [3 * (A - 1) + offset(L)] for an argument id [A >= 1] and a label [L],
    a positive integer; two calls that return the same integer were made
    with the same argument and the same label; and a call repeated with
    the same [(A, L)], at once or after any other calls, returns the same
    integer and leaves the table as it found it. *)
Theorem C2_allocator_formula_injective_stable
    (c c' : gmap string Z) (a a' : Z) (l l' : Label.t) :
  reachable c -> reachable c' -> 1 <= a -> 1 <= a' ->
  fst (_argToLabelVar a l c) = 3 * (a - 1) + Label.value l
  /\ 0 < fst (_argToLabelVar a l c)
  /\ (fst (_argToLabelVar a l c) = fst (_argToLabelVar a' l' c') ->
      a = a' /\ l = l')
  /\ fst (_argToLabelVar a l c') = fst (_argToLabelVar a l c)
  /\ _argToLabelVar a l (snd (_argToLabelVar a l c))
     = (fst (_argToLabelVar a l c), snd (_argToLabelVar a l c)).
Proof.
  intros Hc Hc' Ha Ha'.
  apply reachable_sound in Hc, Hc'.
  destruct (argToLabelVar_computes a l c Hc) as [E _].
  destruct (argToLabelVar_computes a l c' Hc') as [E' _].
  destruct (argToLabelVar_computes a' l' c' Hc') as [E'' _].
  rewrite E, E', E''.
  split; [reflexivity |]. split; [apply var_positive, Ha |].
  split; [apply var_inj |]. split; [reflexivity |].
  rewrite <- E. apply argToLabelVar_idle.
Qed.

Lemma C2_allocator_witness :
  fst (_argToLabelVar 1 Label.In ∅) = 3 * (1 - 1) + Label.value Label.In.
Proof.
  refine (proj1 (C2_allocator_formula_injective_stable
                   ∅ (snd (_argToLabelVar 2 Label.Out ∅)) 1 2
                   Label.In Label.Out _ _ _ _)).
  - apply reachable_init.
  - apply reachable_call, reachable_init.
  - lia.
  - lia.
Defined.

(** C6, refuted: called with the argument id 0 the allocator raises
    nothing; it returns the variable id -2 and records it in the memo
    table. *)
Lemma C6_allocator_accepts_zero :
  _argToLabelVar 0 Label.In ∅ = (-2, {["Label.In-0" := -2]})
  /\ ~ 0 < fst (_argToLabelVar 0 Label.In ∅).
Proof. split; [reflexivity | vm_compute; discriminate]. Qed.

(** C6, amended: for every argument id below 1 and every label the
    allocator raises nothing: it returns, as for any other id,
    [3 * (A - 1) + offset(L)], which is then zero or negative, and it
    memoizes it: the table it leaves holds that value under the key of
    [(A, L)], and otherwise only what it held before. *)
Theorem C6_allocator_below_one (c : gmap string Z) (a : Z) (l : Label.t) :
  reachable c -> a < 1 ->
  fst (_argToLabelVar a l c) = 3 * (a - 1) + Label.value l
  /\ fst (_argToLabelVar a l c) <= 0
  /\ snd (_argToLabelVar a l c) !! label_key a l
     = Some (3 * (a - 1) + Label.value l)
  /\ snd (_argToLabelVar a l c)
     = <[label_key a l := 3 * (a - 1) + Label.value l]> c.
Proof.
  intros Hc Ha. apply reachable_sound in Hc.
  destruct (argToLabelVar_computes a l c Hc) as [E _].
  pose proof (argToLabelVar_hit a l c) as Hhit. rewrite E in Hhit.
  split; [exact E |].
  split; [rewrite E; apply var_nonpositive, Ha |].
  split; [exact Hhit |].
  unfold _argToLabelVar in *.
  destruct (c !! label_key a l) as [v |] eqn:Hc0; simpl in *.
  - symmetry. apply insert_id. rewrite Hc0, E. reflexivity.
  - reflexivity.
Qed.

Lemma C6_allocator_below_one_witness :
  fst (_argToLabelVar (-4) Label.Und ∅) <= 0
  /\ snd (_argToLabelVar (-4) Label.Und ∅) !! label_key (-4) Label.Und
     = Some (3 * (-4 - 1) + Label.value Label.Und).
Proof.
  pose proof (C6_allocator_below_one ∅ (-4) Label.Und reachable_init
                ltac:(lia)) as [_ [H1 [H2 _]]].
  split; [exact H1 | exact H2].
Defined.

(** ** The decoders *)

(** C1, refuted: in the answer below the true [In] variable is 4, the one
    of argument 2.  The extension of the specification is [2];
    [extractExtention] returns the variable id 4. *)
Lemma C1_extension_holds_variable_ids :
  read_model "v -1 2 -3 4 -5 -6 0" = Ok [-1; 2; -3; 4; -5; -6]
  /\ extension_of_model [-1; 2; -3; 4; -5; -6] = [2]
  /\ extractExtention "v -1 2 -3 4 -5 -6 0" = Ok [4]
  /\ extractExtention "v -1 2 -3 4 -5 -6 0"
     <> Ok (extension_of_model [-1; 2; -3; 4; -5; -6]).
Proof. repeat split; try reflexivity. vm_compute. discriminate. Qed.

(** C1, amended: when every token between the first and the last one is
    an integer, [extractExtention] returns, in the order of the line, the
    positive entries that sit at an [In] offset and lie below the number
    of entries.  Each of them is the [In] variable of an argument, returned
    as that variable id; mapping the result back to argument ids gives the
    extension whenever no entry reaches the number of entries. *)
Theorem C1_extractExtention_In_variables out model :
  read_model out = Ok model ->
  exists ext,
    extractExtention out = Ok ext
    /\ ext = List.filter
               (fun v => (0 <? v) && is_In_var v
                         && (v <? Z.of_nat (length model))) model
    /\ (forall v, v ∈ ext ->
          v = var (arg_of_var v) Label.In /\ 1 <= arg_of_var v)
    /\ ((forall v, v ∈ model -> v < Z.of_nat (length model)) ->
        arg_of_var <$> ext = extension_of_model model).
Proof.
  intros H. eexists. split; [apply extractExtention_Ok, H |].
  split; [reflexivity |]. split.
  - intros v Hv. apply list_elem_of_In, filter_In in Hv as [_ Hv].
    rewrite !andb_true_iff, !Z.ltb_lt in Hv. destruct Hv as [[Hpos Hin] _].
    unfold is_In_var in Hin. simpl in Hin. apply Z.eqb_eq in Hin.
    split; [symmetry; apply var_arg_of_var, Hin |].
    unfold arg_of_var.
    pose proof (Z.div_pos (v - 1) 3 ltac:(lia) ltac:(lia)). lia.
  - intros Hlt. unfold extension_of_model. f_equal.
    apply filter_ext_in. intros v Hv.
    apply list_elem_of_In, Hlt, Z.ltb_lt in Hv. rewrite Hv.
    apply andb_true_r.
Qed.

Lemma C1_extractExtention_witness :
  exists ext, extractExtention "v 1 -2 -3 -4 5 -6 7 -8 -9 0" = Ok ext
              /\ ext = [1; 7].
Proof.
  destruct (C1_extractExtention_In_variables
              "v 1 -2 -3 -4 5 -6 7 -8 -9 0"
              [1; -2; -3; -4; 5; -6; 7; -8; -9] eq_refl)
    as [ext [H1 [H2 _]]].
  exists ext. split; [exact H1 | exact H2].
Defined.

(** C7: when a token between the first and the last one is no integer,
    both decoders raise; neither skips the token nor returns a part of the
    result.  The exception is the [ValueError] of [int]. *)
Theorem C7_malformed_token_raises out tok :
  tok ∈ slice_1_m1 (split_space out) -> py_int tok = None ->
  extractExtention out = Raise ValueError
  /\ extractLabeling out = Raise ValueError.
Proof.
  intros Hin Hno. unfold extractExtention, extractLabeling.
  rewrite (read_model_Raise out tok Hin Hno). split; reflexivity.
Qed.

Lemma C7_malformed_token_witness :
  extractExtention "v 1 x -3 0" = Raise ValueError
  /\ extractLabeling "v 1 x -3 0" = Raise ValueError.
Proof.
  apply (C7_malformed_token_raises "v 1 x -3 0" "x").
  - change (slice_1_m1 (split_space "v 1 x -3 0")) with ["1"; "x"; "-3"].
    right. left.
  - reflexivity.
Defined.

(** C8, refuted: the line below starts with a status marker and ends
    with the closing 0; the tokens between them that parse as positive
    integers are 1 and 2, yet [extractLabeling] returns nothing: the token
    [x] makes it raise. *)
Lemma C8_labeling_raises_on_other_token :
  split_space "v 1 x 2 0" = ["v"; "1"; "x"; "2"; "0"]
  /\ py_int "v" = None
  /\ positive_tokens "v 1 x 2 0" = [1; 2]
  /\ extractLabeling "v 1 x 2 0" = Raise ValueError
  /\ extractLabeling "v 1 x 2 0" <> Ok (positive_tokens "v 1 x 2 0").
Proof. repeat split; try reflexivity. vm_compute. discriminate. Qed.

Lemma omap_py_int_all mids model :
  Forall2 (fun tok z => py_int tok = Some z) mids model ->
  omap py_int mids = model.
Proof.
  induction 1 as [|tok z mids model Htok _ IH]; csimpl; [reflexivity |].
  rewrite Htok, IH. reflexivity.
Qed.

(** C8, amended: on a line whose tokens between the first and the last one
    all parse as integers, [extractLabeling] returns exactly the tokens
    that parse as positive integers, in the order of the line; the first
    token (the status marker) and the last one (the closing 0) are left
    out, whatever they are. *)
Theorem C8_extractLabeling_positive_in_order
    out (first last : string) (mids : list string) (model : list Z) :
  split_space out = first :: mids ++ [last] ->
  Forall2 (fun tok z => py_int tok = Some z) mids model ->
  extractLabeling out = Ok (List.filter (fun z => 0 <? z) model)
  /\ extractLabeling out = Ok (positive_tokens out).
Proof.
  intros Hsplit Hints. unfold extractLabeling, positive_tokens.
  assert (read_model out = Ok model) as ->.
  { apply read_model_Ok. rewrite Hsplit, slice_1_m1_middle. exact Hints. }
  rewrite Hsplit, slice_1_m1_middle, (omap_py_int_all mids model Hints).
  split; reflexivity.
Qed.

Lemma C8_extractLabeling_witness :
  extractLabeling "v 1 -2 -3 -4 5 -6 0" = Ok [1; 5].
Proof.
  refine (proj1 (C8_extractLabeling_positive_in_order "v 1 -2 -3 -4 5 -6 0"
                   "v" "0" ["1"; "-2"; "-3"; "-4"; "5"; "-6"]
                   [1; -2; -3; -4; 5; -6] _ _)).
  - reflexivity.
  - repeat (apply List.Forall2_cons; [reflexivity |]). apply List.Forall2_nil.
Defined.

(** C10: every value [extractExtention] returns lies in
    [range(1, M, 3)], where [M] is the number of tokens left after the
    first and the last one are dropped; so a positive entry at an [In]
    offset that is [M] or more is not returned. *)
Theorem C10_extension_below_token_count out ext :
  extractExtention out = Ok ext ->
  let M := Z.of_nat (length (slice_1_m1 (split_space out))) in
  (forall v, v ∈ ext ->
     in_range 1 M 3 v = true /\ 1 <= v < M /\ (v - 1) mod 3 = 0)
  /\ (forall model v,
        read_model out = Ok model -> v ∈ model ->
        0 < v -> (v - 1) mod 3 = 0 -> M <= v -> v ∉ ext).
Proof.
  intros H M. apply extractExtention_inv in H as [model [Hm ->]].
  assert (Z.of_nat (length model) = M) as HM
    by (unfold M; rewrite (read_model_length out model Hm); reflexivity).
  rewrite HM.
  assert (forall v,
    v ∈ List.filter
          (fun v => (0 <? v) && in_range 1 M Label.len (Z.abs v)) model ->
    1 <= v < M /\ (v - 1) mod 3 = 0) as Hrange.
  { intros v Hv. apply list_elem_of_In, filter_In in Hv as [_ Hv].
    apply extension_test_true. exact Hv. }
  split.
  - intros v Hv. pose proof (Hrange v Hv) as Hr. split; [| exact Hr].
    unfold in_range. rewrite !andb_true_iff, Z.leb_le, Z.ltb_lt, Z.eqb_eq.
    lia.
  - intros model' v _ _ _ _ Hge Hv. apply Hrange in Hv. lia.
Qed.

Lemma C10_extension_witness :
  in_range 1 4 3 1 = true /\ 4 ∉ [1].
Proof.
  pose proof (C10_extension_below_token_count "v 1 -2 -3 4 0" [1] eq_refl)
    as [Hin Hout].
  split.
  - apply (Hin 1). left.
  - apply (Hout [1; -2; -3; 4] 4); [reflexivity | | lia | reflexivity |].
    + do 3 right. left.
    + vm_compute. discriminate.
Defined.

(** On a line cut short the [In] variable of argument 2 is true and yet
    missing from the result: with four entries the bound is 4. *)
Example truncated_answer_drops_In_variable :
  read_model "v 1 -2 -3 4 0" = Ok [1; -2; -3; 4]
  /\ extractExtention "v 1 -2 -3 4 0" = Ok [1]
  /\ extractLabeling "v 1 -2 -3 4 0" = Ok [1; 4].
Proof. repeat split; reflexivity. Qed.

(** ** The encoded problem *)

Lemma two_args_ok : framework_ok two_args.
Proof.
  assert (forall x : Z, x ∈ [1; 2] <-> x = 1 \/ x = 2) as Hmem.
  { intros x. rewrite list_elem_of_In. simpl. lia. }
  split; simpl.
  - reflexivity.
  - apply NoDup_cons. split; [| apply NoDup_singleton].
    rewrite list_elem_of_In. simpl. lia.
  - intros a b _ Hb. apply Hmem.
    destruct (a =? 2); apply list_elem_of_In in Hb; simpl in Hb; lia.
  - intros a b _ Hb. apply Hmem.
    destruct (a =? 1); apply list_elem_of_In in Hb; simpl in Hb; lia.
  - intros a b Ha Hb. apply Hmem in Ha, Hb.
    destruct Ha as [-> | ->], Hb as [-> | ->]; reflexivity.
Qed.

(** C3: for a framework of [N] arguments and [E] attacks, the header of
    the problem [parse] builds with the ruleset of the complete semantics
    counts [3 * N] variables and [6 * N + 2 * E] clauses: [4 * N] of
    uniqueness, [N] of in-rule 1, [E] of in-rule 2, [E] of out-rule 1 and
    [N] of out-rule 2. *)
Theorem C3_header_counts (f : Framework) (c : gmap string Z) :
  framework_ok f -> reachable c ->
  let N := Z.of_nat (length (getArguments f)) in
  let E := edge_count f in
  let problem := fst (parse CompleteLabelingDIMACSParser f c) in
  let count template :=
    Z.of_nat (length (fst (generateAll {| _template := template |}
                             (getArguments f) f c))) in
  _clauses (_header problem) = 6 * N + 2 * E
  /\ _vars (_header problem) = 3 * N
  /\ count uniqueness_theory = 4 * N
  /\ count in_complete_1 = N
  /\ count in_complete_2 = E
  /\ count out_complete_1 = E
  /\ count out_complete_2 = N.
Proof.
  intros Hok Hc N E problem count. apply reachable_sound in Hc.
  assert (forall template p,
            (forall a, computes (template a f) (p a f)) ->
            count template
            = Z.of_nat (length (concat ((fun a => p a f) <$> getArguments f))))
    as Hcount.
  { intros template p Hp. unfold count.
    destruct (generateAll_computes {| _template := template |} f p
                (getArguments f) Hp c Hc) as [-> _]. reflexivity. }
  unfold problem.
  destruct (parse_complete_computes f c Hc) as [-> _]. simpl.
  split; [apply (count_complete f Hok) |].
  split; [rewrite (ok_len f Hok); unfold Label.len, N; lia |].
  split; [rewrite (Hcount _ (fun a _ => uniqueness_clauses a)
                     (fun a => uniqueness_theory_computes a f)),
            count_uniqueness; unfold N; lia |].
  split; [rewrite (Hcount _ in_1_clauses
                     (fun a => in_complete_1_computes a f)), count_in_1;
          reflexivity |].
  split; [rewrite (Hcount _ in_2_clauses
                     (fun a => in_complete_2_computes a f)), count_in_2,
            (attacks_counted_twice f Hok); reflexivity |].
  split; [rewrite (Hcount _ out_1_clauses
                     (fun a => out_complete_1_computes a f)), count_out_1;
          reflexivity |].
  rewrite (Hcount _ out_2_clauses (fun a => out_complete_2_computes a f)),
    count_out_2. reflexivity.
Qed.

Lemma C3_header_counts_witness :
  _clauses (_header (fst (parse CompleteLabelingDIMACSParser two_args ∅)))
  = 6 * 2 + 2 * 1.
Proof.
  exact (proj1 (C3_header_counts two_args ∅ two_args_ok reachable_init)).
Defined.

(** C4: for the arguments 1 and 2 and the attack of 1 on 2, the header
    counts 6 variables; in-rule 1 of argument 1 is the unit clause
    [In(1)]; in-rule 2 of argument 1 is [-In(1), Out(2)]; out-rule 1 of
    argument 2 is [-In(1), Out(2)]; out-rule 2 of argument 2 is
    [In(1), -Out(2)]; and the answer in which just the variables of
    (1, In) and (2, Out) are true decodes to the extension [1]. *)
Theorem C4_two_arguments_one_attack (c : gmap string Z) :
  reachable c ->
  _vars (_header (fst (parse CompleteLabelingDIMACSParser two_args c))) = 6
  /\ fst (in_complete_1 1 two_args c) = [[var 1 Label.In]]
  /\ fst (in_complete_2 1 two_args c) = [[- var 1 Label.In; var 2 Label.Out]]
  /\ fst (out_complete_1 2 two_args c)
     = [[- var 1 Label.In; var 2 Label.Out]]
  /\ fst (out_complete_2 2 two_args c)
     = [[var 1 Label.In; - var 2 Label.Out]]
  /\ extractExtention
       (answer_line "v" [var 1 Label.In; - var 1 Label.Out; - var 1 Label.Und;
                         - var 2 Label.In; var 2 Label.Out; - var 2 Label.Und])
     = Ok [1].
Proof.
  intros Hc. apply reachable_sound in Hc.
  destruct (parse_complete_computes two_args c Hc) as [-> _].
  destruct (in_complete_1_computes 1 two_args c Hc) as [-> _].
  destruct (in_complete_2_computes 1 two_args c Hc) as [-> _].
  destruct (out_complete_1_computes 2 two_args c Hc) as [-> _].
  destruct (out_complete_2_computes 2 two_args c Hc) as [-> _].
  repeat split; vm_compute; reflexivity.
Qed.

Lemma C4_two_arguments_witness :
  fst (in_complete_2 1 two_args ∅) = [[- var 1 Label.In; var 2 Label.Out]].
Proof.
  exact (proj1 (proj2 (proj2 (C4_two_arguments_one_attack ∅ reachable_init)))).
Defined.

(** ** Satisfying assignments *)

Lemma in_all_clauses pures f p a clause :
  p ∈ pures -> a ∈ getArguments f -> clause ∈ p a f ->
  clause ∈ all_clauses pures f.
Proof.
  intros Hp Ha Hcl. unfold all_clauses.
  apply list_elem_of_In, in_concat.
  exists (concat ((fun a => p a f) <$> getArguments f)). split.
  - apply list_elem_of_In.
    apply (list_elem_of_fmap_2
             (fun p => concat ((fun a => p a f) <$> getArguments f)) _ _ Hp).
  - apply in_concat. exists (p a f). split; apply list_elem_of_In.
    + apply (list_elem_of_fmap_2 (fun a => p a f) _ _ Ha).
    + exact Hcl.
Qed.

Lemma cnf_true_clause rho cnf clause :
  cnf_true rho cnf = true -> clause ∈ cnf -> clause_true rho clause = true.
Proof.
  unfold cnf_true. rewrite forallb_forall. intros H Hin.
  apply H, list_elem_of_In, Hin.
Qed.

Lemma unit_clause_true rho lit :
  clause_true rho [lit] = true -> lit_true rho lit = true.
Proof. unfold clause_true. simpl. rewrite orb_false_r. auto. Qed.

(** C5: for an argument [A] without attackers, in-rule 1 yields just the
    unit clause [In(A)] and out-rule 2 just the unit clause [-Out(A)],
    whatever the framework; so every assignment that satisfies the clauses
    [parse] collects for a framework that lists [A] makes [In(A)] true and
    [Out(A)] false. *)
Theorem C5_unattacked_argument_forced_in
    (f : Framework) (a : Z) (c : gmap string Z) :
  reachable c -> getAttackers f a = [] ->
  fst (in_complete_1 a f c) = [[var a Label.In]]
  /\ fst (out_complete_2 a f c) = [[- var a Label.Out]]
  /\ (a ∈ getArguments f -> 1 <= a ->
      forall rho : Z -> bool,
        cnf_true rho
          (snd (fst (parse_loop (_theories CompleteLabelingDIMACSParser) f
                       (getArguments f) 0 [] c))) = true ->
        rho (var a Label.In) = true /\ rho (var a Label.Out) = false).
Proof.
  intros Hc Hnone. apply reachable_sound in Hc.
  destruct (in_complete_1_computes a f c Hc) as [-> _].
  destruct (out_complete_2_computes a f c Hc) as [-> _].
  unfold in_1_clauses, out_2_clauses. rewrite Hnone.
  split; [reflexivity |]. split; [reflexivity |].
  intros Ha Hpos rho Hsat.
  destruct (parse_loop_computes f _ _ (getArguments f) 0 []
              (complete_theories_computed f) c Hc) as [E _].
  rewrite E in Hsat. simpl snd in Hsat.
  change (cnf_true rho (complete_clauses f) = true) in Hsat.
  pose proof (var_positive a Label.In Hpos) as HposIn.
  pose proof (var_positive a Label.Out Hpos) as HposOut.
  split.
  - assert ([var a Label.In] ∈ complete_clauses f) as Hin.
    { apply (in_all_clauses _ f in_1_clauses a); [do 1 right; left | exact Ha |].
      unfold in_1_clauses. rewrite Hnone. left. }
    apply (cnf_true_clause rho _ _ Hsat), unit_clause_true in Hin.
    unfold lit_true in Hin.
    destruct (Z.ltb_spec 0 (var a Label.In)); [exact Hin | lia].
  - assert ([- var a Label.Out] ∈ complete_clauses f) as Hin.
    { apply (in_all_clauses _ f out_2_clauses a);
        [do 4 right; left | exact Ha |].
      unfold out_2_clauses. rewrite Hnone. left. }
    apply (cnf_true_clause rho _ _ Hsat), unit_clause_true in Hin.
    unfold lit_true in Hin.
    destruct (Z.ltb_spec 0 (- var a Label.Out)); [lia |].
    rewrite Z.opp_involutive in Hin. apply negb_true_iff in Hin. exact Hin.
Qed.

Lemma C5_unattacked_argument_witness :
  fst (in_complete_1 1 two_args ∅) = [[var 1 Label.In]]
  /\ fst (out_complete_2 1 two_args ∅) = [[- var 1 Label.Out]].
Proof.
  pose proof (C5_unattacked_argument_forced_in two_args 1 ∅
                reachable_init eq_refl) as [H1 [H2 _]].
  split; [exact H1 | exact H2].
Defined.

(** ** The blank line of an empty problem *)

(** C9, at the framework without arguments: no clause is generated and
    the header counts none, yet the text has a second, empty line after
    the header; the format asks for the header alone. *)
Theorem C9_empty_problem_has_blank_line :
  DIMACSInput_str (fst (parse CompleteLabelingDIMACSParser no_args ∅))
  = "p cnf 0 0" +:+ newline +:+ newline
  /\ DIMACSInput_str (fst (parse CompleteLabelingDIMACSParser no_args ∅))
     <> "p cnf 0 0" +:+ newline +:+ body_lines [].
Proof. split; [reflexivity | vm_compute; discriminate]. Qed.

(** With at least one clause the text is as the format asks: the header
    line, then every clause on a line of its own. *)
Lemma parse_text_lines (self : DIMACSParser) f c :
  let raw :=
    snd (fst (parse_loop (_theories self) f (getArguments f) 0 [] c)) in
  raw <> [] ->
  DIMACSInput_str (fst (parse self f c))
  = "p cnf " +:+ str_int (framework_len f * 3) +:+ " "
    +:+ str_int (Z.of_nat (length raw)) +:+ newline +:+ body_lines raw.
Proof.
  intros raw Hne. rewrite <- (parseCNFTheory_lines raw Hne).
  apply parse_text.
Qed.

Example two_args_text :
  DIMACSInput_str (fst (parse CompleteLabelingDIMACSParser two_args ∅))
  = "p cnf 6 14" +:+ newline
    +:+ body_lines [[1; 2; 3]; [-1; -2]; [-1; -3]; [-2; -3];
                    [4; 5; 6]; [-4; -5]; [-4; -6]; [-5; -6];
                    [1]; [-2; 4];
                    [-1; 5];
                    [-1; 5];
                    [-2]; [1; -5]].
Proof. vm_compute. reflexivity. Qed.

(** * Further properties *)

(** ** What the clauses say *)

Lemma lit_true_pos rho v : 0 < v -> lit_true rho v = rho v.
Proof. intros H. unfold lit_true. destruct (Z.ltb_spec 0 v); [reflexivity | lia]. Qed.

Lemma lit_true_neg rho v : 0 < v -> lit_true rho (- v) = negb (rho v).
Proof.
  intros H. unfold lit_true. destruct (Z.ltb_spec 0 (- v)); [lia |].
  rewrite Z.opp_involutive. reflexivity.
Qed.

Lemma cnf_true_app rho cnf1 cnf2 :
  cnf_true rho (cnf1 ++ cnf2) = cnf_true rho cnf1 && cnf_true rho cnf2.
Proof. apply forallb_app. Qed.

Lemma cnf_true_forall rho cnf :
  cnf_true rho cnf = true
  <-> forall clause, clause ∈ cnf -> clause_true rho clause = true.
Proof.
  unfold cnf_true. rewrite forallb_forall.
  split; intros H cl Hcl; apply H; apply list_elem_of_In; exact Hcl.
Qed.

Lemma clause_true_exists rho clause :
  clause_true rho clause = true
  <-> exists lit, lit ∈ clause /\ lit_true rho lit = true.
Proof.
  unfold clause_true. rewrite existsb_exists.
  split; intros [lit [H1 H2]]; exists lit; split; try exact H2;
    apply list_elem_of_In; exact H1.
Qed.

Lemma elem_of_concat {A} (x : A) (ls : list (list A)) :
  x ∈ concat ls <-> exists l, l ∈ ls /\ x ∈ l.
Proof.
  rewrite list_elem_of_In, in_concat.
  split; intros [l [H1 H2]]; exists l; split; apply list_elem_of_In; assumption.
Qed.

Lemma elem_of_all_clauses pures f clause :
  clause ∈ all_clauses pures f
  <-> exists p a, p ∈ pures /\ a ∈ getArguments f /\ clause ∈ p a f.
Proof.
  unfold all_clauses. rewrite elem_of_concat. split.
  - intros [l [Hl Hcl]]. apply list_elem_of_fmap in Hl as [p [-> Hp]].
    apply elem_of_concat in Hcl as [l' [Hl' Hcl]].
    apply list_elem_of_fmap in Hl' as [a [-> Ha]]. eauto.
  - intros [p [a [Hp [Ha Hcl]]]]. apply elem_of_concat.
    apply (in_all_clauses pures f p a clause Hp Ha Hcl).
Qed.

Lemma cnf_true_all_clauses rho pures f :
  cnf_true rho (all_clauses pures f) = true
  <-> forall p a, p ∈ pures -> a ∈ getArguments f ->
        cnf_true rho (p a f) = true.
Proof.
  rewrite cnf_true_forall. split.
  - intros H p a Hp Ha. apply cnf_true_forall. intros cl Hcl.
    apply H, elem_of_all_clauses. eauto.
  - intros H cl Hcl. apply elem_of_all_clauses in Hcl as [p [a [Hp [Ha Hcl]]]].
    exact (proj1 (cnf_true_forall rho (p a f)) (H p a Hp Ha) cl Hcl).
Qed.

(** A test that fails somewhere on a list fails on one of its elements. *)
Lemma forallb_false_witness {A} (p : A -> bool) (l : list A) :
  forallb p l = false -> exists x, x ∈ l /\ p x = false.
Proof.
  induction l as [|x l IH]; simpl; [discriminate |].
  destruct (p x) eqn:E; simpl.
  - intros H. destruct (IH H) as [y [Hy Hp]]. exists y. split; [right |]; assumption.
  - intros _. exists x. split; [left | exact E].
Qed.

Lemma uniqueness_clauses_meaning rho a :
  1 <= a ->
  cnf_true rho (uniqueness_clauses a) = true <-> one_label rho a.
Proof.
  intros Ha. unfold uniqueness_clauses, one_label, labelled, cnf_true,
    clause_true. simpl.
  rewrite !lit_true_pos, !lit_true_neg by (apply var_positive, Ha).
  destruct (rho (var a Label.In)), (rho (var a Label.Out)),
    (rho (var a Label.Und)); simpl; split; intros H;
    try discriminate H; try reflexivity;
    try (destruct H as [H | [H | H]]; destruct H as [H1 [H2 H3]];
         congruence);
    first [ left; repeat split; congruence
          | right; left; repeat split; congruence
          | right; right; repeat split; congruence ].
Qed.

Lemma in_1_clauses_meaning rho f a :
  1 <= a -> (forall b, b ∈ getAttackers f a -> 1 <= b) ->
  cnf_true rho (in_1_clauses a f) = true <-> in_1_holds rho f a.
Proof.
  intros Ha Hatt. unfold in_1_clauses, in_1_holds, labelled, cnf_true.
  simpl. rewrite andb_true_r, clause_true_exists. split.
  - intros [lit [Hin Hlit]] Hall.
    apply elem_of_app in Hin as [Hin | Hin].
    + apply list_elem_of_fmap in Hin as [b [-> Hb]].
      rewrite lit_true_neg, (Hall b Hb) in Hlit
        by (apply var_positive, Hatt, Hb). discriminate.
    + apply list_elem_of_singleton in Hin as ->.
      rewrite lit_true_pos in Hlit by (apply var_positive, Ha). exact Hlit.
  - intros H.
    destruct (forallb (fun b => rho (var b Label.Out)) (getAttackers f a))
      eqn:E.
    + exists (var a Label.In). split; [apply elem_of_app; right; left |].
      rewrite lit_true_pos by (apply var_positive, Ha). apply H.
      intros b Hb. rewrite forallb_forall in E.
      apply E, list_elem_of_In, Hb.
    + apply forallb_false_witness in E as [b [Hb Hout]].
      exists (- var b Label.Out). split.
      * apply elem_of_app. left.
        apply (list_elem_of_fmap_2 (fun b => - var b Label.Out) _ _ Hb).
      * rewrite lit_true_neg, Hout by (apply var_positive, Hatt, Hb).
        reflexivity.
Qed.

Lemma out_2_clauses_meaning rho f a :
  1 <= a -> (forall b, b ∈ getAttackers f a -> 1 <= b) ->
  cnf_true rho (out_2_clauses a f) = true <-> out_2_holds rho f a.
Proof.
  intros Ha Hatt. unfold out_2_clauses, out_2_holds, labelled, cnf_true.
  simpl. rewrite andb_true_r, clause_true_exists. split.
  - intros [lit [Hin Hlit]] Hout.
    apply elem_of_app in Hin as [Hin | Hin].
    + apply list_elem_of_fmap in Hin as [b [-> Hb]]. exists b.
      rewrite lit_true_pos in Hlit by (apply var_positive, Hatt, Hb).
      split; assumption.
    + apply list_elem_of_singleton in Hin as ->.
      rewrite lit_true_neg, Hout in Hlit by (apply var_positive, Ha).
      discriminate.
  - intros H. destruct (rho (var a Label.Out)) eqn:E.
    + destruct (H eq_refl) as [b [Hb Hin]]. exists (var b Label.In). split.
      * apply elem_of_app. left.
        apply (list_elem_of_fmap_2 (fun b => var b Label.In) _ _ Hb).
      * rewrite lit_true_pos by (apply var_positive, Hatt, Hb). exact Hin.
    + exists (- var a Label.Out). split; [apply elem_of_app; right; left |].
      rewrite lit_true_neg, E by (apply var_positive, Ha). reflexivity.
Qed.

(** A clause [-x, y] over two variables is the implication from [x] to
    [y]. *)
Lemma implication_clause rho x y :
  0 < x -> 0 < y ->
  clause_true rho [- x; y] = true <-> (rho x = true -> rho y = true).
Proof.
  intros Hx Hy. unfold clause_true. simpl.
  rewrite lit_true_neg, lit_true_pos by assumption.
  destruct (rho x), (rho y); simpl; split; auto; intros H;
    try discriminate H; try (discriminate (H eq_refl)).
Qed.

Lemma in_2_clauses_meaning rho f a :
  1 <= a -> (forall b, b ∈ getAttackedBy f a -> 1 <= b) ->
  cnf_true rho (in_2_clauses a f) = true <-> in_2_holds rho f a.
Proof.
  intros Ha Hby. unfold in_2_clauses, in_2_holds, labelled.
  rewrite cnf_true_forall. split.
  - intros H Hin b Hb.
    apply (implication_clause rho (var a Label.In) (var b Label.Out));
      [apply var_positive, Ha | apply var_positive, Hby, Hb | | exact Hin].
    apply H.
    apply (list_elem_of_fmap_2
             (fun c => [- var a Label.In; var c Label.Out]) _ _ Hb).
  - intros H cl Hcl. apply list_elem_of_fmap in Hcl as [b [-> Hb]].
    apply implication_clause;
      [apply var_positive, Ha | apply var_positive, Hby, Hb |].
    intros Hin. exact (H Hin b Hb).
Qed.

Lemma out_1_clauses_meaning rho f a :
  1 <= a -> (forall b, b ∈ getAttackers f a -> 1 <= b) ->
  cnf_true rho (out_1_clauses a f) = true <-> out_1_holds rho f a.
Proof.
  intros Ha Hatt. unfold out_1_clauses, out_1_holds, labelled.
  rewrite cnf_true_forall. split.
  - intros H b Hb Hin.
    apply (implication_clause rho (var b Label.In) (var a Label.Out));
      [apply var_positive, Hatt, Hb | apply var_positive, Ha | | exact Hin].
    apply H.
    apply (list_elem_of_fmap_2
             (fun b => [- var b Label.In; var a Label.Out]) _ _ Hb).
  - intros H cl Hcl. apply list_elem_of_fmap in Hcl as [b [-> Hb]].
    apply implication_clause;
      [apply var_positive, Hatt, Hb | apply var_positive, Ha |].
    intros Hin. exact (H b Hb Hin).
Qed.

Lemma attacked_is_attacker f a b :
  framework_ok f -> a ∈ getArguments f -> b ∈ getArguments f ->
  (b ∈ getAttackers f a <-> a ∈ getAttackedBy f b).
Proof.
  intros Hok Ha Hb. rewrite !list_elem_of_In.
  rewrite (count_occ_In Z.eq_dec), (count_occ_In Z.eq_dec).
  rewrite (ok_converse f Hok a b Ha Hb). reflexivity.
Qed.

(** X1: for an argument id of 1 or more, an assignment satisfies the four
    clauses of [uniqueness_theory] exactly when it makes one and only one
    of the argument's three label variables true. *)
Theorem uniqueness_theory_exactly_one_label
    (rho : Z -> bool) (f : Framework) (a : Z) (c : gmap string Z) :
  reachable c -> 1 <= a ->
  cnf_true rho (fst (uniqueness_theory a f c)) = true <-> one_label rho a.
Proof.
  intros Hc Ha. apply reachable_sound in Hc.
  destruct (uniqueness_theory_computes a f c Hc) as [-> _].
  apply uniqueness_clauses_meaning, Ha.
Qed.

Lemma uniqueness_theory_witness :
  one_label (fun v => v =? 5) 2.
Proof.
  apply (uniqueness_theory_exactly_one_label (fun v => v =? 5) no_args 2 ∅
           reachable_init); [lia | reflexivity].
Defined.

(** X2: with ids of 1 or more, the clause of [in_complete_1] holds exactly
    when "all attackers of [a] are Out" implies "[a] is In", and the
    clauses of [in_complete_2] hold exactly when "[a] is In" implies that
    every argument [getAttackedBy] lists for [a] is Out. *)
Theorem in_rules_meaning
    (rho : Z -> bool) (f : Framework) (a : Z) (c : gmap string Z) :
  reachable c -> 1 <= a ->
  (forall b, b ∈ getAttackers f a -> 1 <= b) ->
  (forall b, b ∈ getAttackedBy f a -> 1 <= b) ->
  (cnf_true rho (fst (in_complete_1 a f c)) = true <-> in_1_holds rho f a)
  /\ (cnf_true rho (fst (in_complete_2 a f c)) = true <-> in_2_holds rho f a).
Proof.
  intros Hc Ha Hatt Hby. apply reachable_sound in Hc.
  destruct (in_complete_1_computes a f c Hc) as [-> _].
  destruct (in_complete_2_computes a f c Hc) as [-> _].
  split; [apply in_1_clauses_meaning | apply in_2_clauses_meaning]; assumption.
Qed.

Lemma two_args_positive : positive_ids two_args.
Proof.
  intros a Ha. apply list_elem_of_In in Ha. simpl in Ha.
  split; [lia |]. simpl.
  split; intros b Hb; [destruct (a =? 2) | destruct (a =? 1)];
    apply list_elem_of_In in Hb; simpl in Hb; lia.
Qed.

Lemma in_rules_witness :
  in_2_holds (fun v => (v =? 1) || (v =? 5)) two_args 1.
Proof.
  destruct (two_args_positive 1 ltac:(left)) as [H1 [H2 H3]].
  apply (in_rules_meaning (fun v => (v =? 1) || (v =? 5)) two_args 1 ∅
           reachable_init H1 H2 H3).
  reflexivity.
Defined.

(** X3: with ids of 1 or more, the clauses of [out_complete_1] hold exactly
    when an attacker of [a] that is In makes [a] Out, and the clause of
    [out_complete_2] holds exactly when "[a] is Out" implies that some
    attacker of [a] is In. *)
Theorem out_rules_meaning
    (rho : Z -> bool) (f : Framework) (a : Z) (c : gmap string Z) :
  reachable c -> 1 <= a ->
  (forall b, b ∈ getAttackers f a -> 1 <= b) ->
  (cnf_true rho (fst (out_complete_1 a f c)) = true <-> out_1_holds rho f a)
  /\ (cnf_true rho (fst (out_complete_2 a f c)) = true
      <-> out_2_holds rho f a).
Proof.
  intros Hc Ha Hatt. apply reachable_sound in Hc.
  destruct (out_complete_1_computes a f c Hc) as [-> _].
  destruct (out_complete_2_computes a f c Hc) as [-> _].
  split; [apply out_1_clauses_meaning | apply out_2_clauses_meaning];
    assumption.
Qed.

Lemma out_rules_witness :
  out_2_holds (fun v => (v =? 1) || (v =? 5)) two_args 2.
Proof.
  destruct (two_args_positive 2 ltac:(right; left)) as [H1 [H2 _]].
  apply (out_rules_meaning (fun v => (v =? 1) || (v =? 5)) two_args 2 ∅
           reachable_init H1 H2).
  reflexivity.
Defined.

(** X4: for a framework with ids of 1 or more, an assignment satisfies the
    clauses [parse] collects with the ruleset of the complete semantics
    exactly when, for every argument of the framework, one label holds and
    the four rules hold as conditions on the labels. *)
Theorem complete_ruleset_meaning
    (rho : Z -> bool) (f : Framework) (c : gmap string Z) :
  reachable c -> positive_ids f ->
  cnf_true rho
    (snd (fst (parse_loop (_theories CompleteLabelingDIMACSParser) f
                 (getArguments f) 0 [] c))) = true
  <-> forall a, a ∈ getArguments f ->
        one_label rho a /\ in_1_holds rho f a /\ in_2_holds rho f a
        /\ out_1_holds rho f a /\ out_2_holds rho f a.
Proof.
  intros Hc Hpos. apply reachable_sound in Hc.
  destruct (parse_loop_computes f _ _ (getArguments f) 0 []
              (complete_theories_computed f) c Hc) as [-> _].
  simpl snd.
  match goal with
  | |- cnf_true rho ?x = true <-> _ => change x with (complete_clauses f)
  end.
  unfold complete_clauses. rewrite cnf_true_all_clauses. split.
  - intros H a Ha. destruct (Hpos a Ha) as [H1 [H2 H3]].
    split; [| split; [| split; [| split]]].
    + apply uniqueness_clauses_meaning; [exact H1 |].
      apply (H (fun a _ => uniqueness_clauses a) a); [left | exact Ha].
    + apply in_1_clauses_meaning; [exact H1 | exact H2 |].
      apply (H in_1_clauses a); [do 1 right; left | exact Ha].
    + apply in_2_clauses_meaning; [exact H1 | exact H3 |].
      apply (H in_2_clauses a); [do 2 right; left | exact Ha].
    + apply out_1_clauses_meaning; [exact H1 | exact H2 |].
      apply (H out_1_clauses a); [do 3 right; left | exact Ha].
    + apply out_2_clauses_meaning; [exact H1 | exact H2 |].
      apply (H out_2_clauses a); [do 4 right; left | exact Ha].
  - intros H p a Hp Ha. destruct (Hpos a Ha) as [H1 [H2 H3]].
    destruct (H a Ha) as [U [I1 [I2 [O1 O2]]]].
    repeat (apply elem_of_cons in Hp as [-> | Hp]).
    + apply uniqueness_clauses_meaning; assumption.
    + apply in_1_clauses_meaning; assumption.
    + apply in_2_clauses_meaning; assumption.
    + apply out_1_clauses_meaning; assumption.
    + apply out_2_clauses_meaning; assumption.
    + apply elem_of_nil in Hp. contradiction.
Qed.

Lemma complete_ruleset_witness :
  one_label (fun v => (v =? 1) || (v =? 5)) 2.
Proof.
  apply (proj1 (complete_ruleset_meaning (fun v => (v =? 1) || (v =? 5))
                  two_args ∅ reachable_init two_args_positive)
           eq_refl 2).
  right; left.
Defined.

(** X5: on a framework whose two attack queries are converse to each
    other, [in_complete_2] generates, over all arguments, the very clauses
    [out_complete_1] generates: the clause [-In(a), Out(b)] for every
    attack of [a] on [b]. *)
Theorem in_rule_2_repeats_out_rule_1
    (f : Framework) (c c' : gmap string Z) (clause : list Z) :
  framework_ok f -> reachable c -> reachable c' ->
  clause ∈ fst (generateAll {| _template := in_complete_2 |}
                  (getArguments f) f c)
  <-> clause ∈ fst (generateAll {| _template := out_complete_1 |}
                      (getArguments f) f c').
Proof.
  intros Hok Hc Hc'. apply reachable_sound in Hc, Hc'.
  destruct (generateAll_computes {| _template := in_complete_2 |} f
              in_2_clauses (getArguments f)
              (fun a => in_complete_2_computes a f) c Hc) as [-> _].
  destruct (generateAll_computes {| _template := out_complete_1 |} f
              out_1_clauses (getArguments f)
              (fun a => out_complete_1_computes a f) c' Hc') as [-> _].
  rewrite !elem_of_concat. split.
  - intros [l [Hl Hcl]]. apply list_elem_of_fmap in Hl as [a [-> Ha]].
    apply list_elem_of_fmap in Hcl as [b [-> Hb]].
    pose proof (ok_attacked f Hok a b Ha Hb) as Hb'.
    exists (out_1_clauses b f). split.
    + apply (list_elem_of_fmap_2 (fun a => out_1_clauses a f) _ _ Hb').
    + apply (list_elem_of_fmap_2
               (fun x => [- var x Label.In; var b Label.Out])).
      apply (attacked_is_attacker f b a Hok Hb' Ha), Hb.
  - intros [l [Hl Hcl]]. apply list_elem_of_fmap in Hl as [b [-> Hb]].
    apply list_elem_of_fmap in Hcl as [a [-> Ha]].
    pose proof (ok_attackers f Hok b a Hb Ha) as Ha'.
    exists (in_2_clauses a f). split.
    + apply (list_elem_of_fmap_2 (fun a => in_2_clauses a f) _ _ Ha').
    + apply (list_elem_of_fmap_2
               (fun x => [- var a Label.In; var x Label.Out])).
      apply (attacked_is_attacker f b a Hok Hb Ha'), Ha.
Qed.

Lemma in_rule_2_repeats_witness :
  [-1; 5] ∈ fst (generateAll {| _template := out_complete_1 |}
                   (getArguments two_args) two_args ∅).
Proof.
  apply (in_rule_2_repeats_out_rule_1 two_args ∅ ∅ [-1; 5] two_args_ok
           reachable_init reachable_init).
  left.
Defined.

(** The clauses do not force an argument that is In to have all its
    attackers Out: argument 1 attacks itself and argument 2; with 1
    undecided and 2 In every clause is satisfied. *)
Example in_argument_with_undecided_attacker :
  let rho := fun v => (v =? var 1 Label.Und) || (v =? var 2 Label.In) in
  cnf_true rho
    (snd (fst (parse_loop (_theories CompleteLabelingDIMACSParser)
                 self_attacker (getArguments self_attacker) 0 [] ∅))) = true
  /\ 1 ∈ getAttackers self_attacker 2
  /\ rho (var 2 Label.In) = true
  /\ rho (var 1 Label.Out) = false.
Proof. repeat split; try reflexivity. left. Qed.

(** ** The memo table across a run *)

(** The allocator only adds to the table. *)
Lemma argToLabelVar_grows a l (c : gmap string Z) :
  c ⊆ snd (_argToLabelVar a l c).
Proof.
  unfold _argToLabelVar. destruct (c !! label_key a l) eqn:E; simpl.
  - reflexivity.
  - apply insert_subseteq, E.
Qed.

Section invariant.

(** A property of the memo table that no call of the allocator breaks. *)
Variable P : gmap string Z -> Prop.
Hypothesis allocator_keeps :
  forall a l c, P c -> P (snd (_argToLabelVar a l c)).

Lemma ret_keeps {A} (x : A) c : P c -> P (snd (ret x c)).
Proof. auto. Qed.

Lemma bind_keeps {A B} (m : M A) (k : A -> M B) :
  (forall c, P c -> P (snd (m c))) ->
  (forall x c, P c -> P (snd (k x c))) ->
  forall c, P c -> P (snd (bind m k c)).
Proof.
  intros Hm Hk c Hc. unfold bind. specialize (Hm c Hc).
  destruct (m c) as [x c']. apply Hk, Hm.
Qed.

Lemma for_each_keeps {A B} (f : A -> M B) l :
  (forall x c, P c -> P (snd (f x c))) ->
  forall c, P c -> P (snd (for_each f l c)).
Proof.
  intros Hf. induction l as [|x l IH]; simpl; [auto |].
  apply bind_keeps; [apply Hf |]. intros y.
  apply bind_keeps; [apply IH |]. intros ys c. apply ret_keeps.
Qed.

Ltac keeps :=
  repeat (cbv beta;
    match goal with
    | |- forall c, P c -> P (snd (_argToLabelVar _ _ c)) =>
        apply allocator_keeps
    | |- forall c, P c -> P (snd (ret _ c)) => intros ? ?; assumption
    | |- forall c, P c -> P (snd (bind _ _ c)) =>
        apply bind_keeps; [| intro]
    | |- forall c, P c -> P (snd (for_each _ _ c)) =>
        apply for_each_keeps; intro
    end).

Lemma uniqueness_theory_keeps a f c :
  P c -> P (snd (uniqueness_theory a f c)).
Proof. revert c. unfold uniqueness_theory, inLab, outLab, undLab,
  inLabelVariable, outLabelVariable, undLabelVariable. keeps. Qed.

Lemma in_complete_1_keeps a f c : P c -> P (snd (in_complete_1 a f c)).
Proof. revert c. unfold in_complete_1, inLab, outLab,
  inLabelVariable, outLabelVariable. keeps. Qed.

Lemma in_complete_2_keeps a f c : P c -> P (snd (in_complete_2 a f c)).
Proof. revert c. unfold in_complete_2, inLab, outLab,
  inLabelVariable, outLabelVariable. keeps. Qed.

Lemma out_complete_1_keeps a f c : P c -> P (snd (out_complete_1 a f c)).
Proof. revert c. unfold out_complete_1, inLab, outLab,
  inLabelVariable, outLabelVariable. keeps. Qed.

Lemma out_complete_2_keeps a f c : P c -> P (snd (out_complete_2 a f c)).
Proof. revert c. unfold out_complete_2, inLab, outLab,
  inLabelVariable, outLabelVariable. keeps. Qed.

Lemma generateAll_loop_keeps self f args acc :
  (forall a c, P c -> P (snd (_template self a f c))) ->
  forall c, P c -> P (snd (generateAll_loop self f args acc c)).
Proof.
  intros Ht. revert acc. induction args as [|a args IH]; intros acc; simpl.
  - auto.
  - apply bind_keeps; [apply Ht |]. intros new. apply IH.
Qed.

Lemma parse_loop_keeps theories f args n acc :
  Forall (fun th => forall a c, P c -> P (snd (_template th a f c)))
    theories ->
  forall c, P c -> P (snd (parse_loop theories f args n acc c)).
Proof.
  intros H. revert n acc.
  induction H as [|th ths Hth _ IH]; intros n acc; simpl.
  - auto.
  - apply bind_keeps; [apply generateAll_loop_keeps, Hth |].
    intros new. apply IH.
Qed.

Lemma complete_theories_keep f :
  Forall (fun th => forall a c, P c -> P (snd (_template th a f c)))
    (_theories CompleteLabelingDIMACSParser).
Proof.
  unfold CompleteLabelingDIMACSParser, fromTemplates; simpl.
  repeat (apply List.Forall_cons; [intros a c |]); [.. | apply List.Forall_nil].
  - apply uniqueness_theory_keeps.
  - apply in_complete_1_keeps.
  - apply in_complete_2_keeps.
  - apply out_complete_1_keeps.
  - apply out_complete_2_keeps.
Qed.

Lemma parse_complete_keeps f c :
  P c -> P (snd (parse CompleteLabelingDIMACSParser f c)).
Proof.
  revert c. unfold parse. apply bind_keeps.
  - apply parse_loop_keeps, complete_theories_keep.
  - intros r c Hc. exact Hc.
Qed.

End invariant.

(** X6: the problem [parse] builds with the ruleset of the complete
    semantics does not depend on the memo table it starts from: any two
    reachable tables give the same problem, and so does a second run on
    the table the first run left. *)
Theorem parse_independent_of_memo (f : Framework) (c c' : gmap string Z) :
  reachable c -> reachable c' ->
  fst (parse CompleteLabelingDIMACSParser f c)
  = fst (parse CompleteLabelingDIMACSParser f c')
  /\ fst (parse CompleteLabelingDIMACSParser f
            (snd (parse CompleteLabelingDIMACSParser f c)))
     = fst (parse CompleteLabelingDIMACSParser f c).
Proof.
  intros Hc Hc'. apply reachable_sound in Hc, Hc'.
  destruct (parse_complete_computes f c Hc) as [E Hs].
  destruct (parse_complete_computes f c' Hc') as [E' _].
  destruct (parse_complete_computes f _ Hs) as [E'' _].
  rewrite E, E', E''. split; reflexivity.
Qed.

Lemma parse_independent_witness :
  fst (parse CompleteLabelingDIMACSParser two_args ∅)
  = fst (parse CompleteLabelingDIMACSParser two_args
           (snd (_argToLabelVar 7 Label.Und ∅))).
Proof.
  exact (proj1 (parse_independent_of_memo two_args ∅
                  (snd (_argToLabelVar 7 Label.Und ∅))
                  reachable_init
                  (reachable_call ∅ 7 Label.Und reachable_init))).
Defined.

Lemma allocator_keeps_entries (k : string) a l (c : gmap string Z) :
  is_Some (c !! k) -> is_Some (snd (_argToLabelVar a l c) !! k).
Proof.
  intros H. apply (lookup_weaken_is_Some c); [exact H |].
  apply argToLabelVar_grows.
Qed.

Lemma bind_records_first {A B} (k : string) (m : M A) (n : A -> M B) :
  (forall c, is_Some (snd (m c) !! k)) ->
  (forall x c, is_Some (c !! k) -> is_Some (snd (n x c) !! k)) ->
  forall c, is_Some (snd (bind m n c) !! k).
Proof.
  intros Hm Hn c. unfold bind. specialize (Hm c).
  destruct (m c) as [x c']. apply Hn, Hm.
Qed.

Lemma bind_records_later {A B} (k : string) (m : M A) (n : A -> M B) :
  (forall x c, is_Some (snd (n x c) !! k)) ->
  forall c, is_Some (snd (bind m n c) !! k).
Proof. intros Hn c. unfold bind. destruct (m c) as [x c']. apply Hn. Qed.

Lemma allocator_records a l c :
  is_Some (snd (_argToLabelVar a l c) !! label_key a l).
Proof. rewrite argToLabelVar_hit. eauto. Qed.

(** The first template asks for all three variables of its argument. *)
Lemma uniqueness_theory_records a l f c :
  is_Some (snd (uniqueness_theory a f c) !! label_key a l).
Proof.
  revert c. unfold uniqueness_theory.
  set (P := fun c : gmap string Z => is_Some (c !! label_key a l)).
  assert (forall b l' c, P c -> P (snd (_argToLabelVar b l' c))) as Hkeep
    by (intros b l'; apply allocator_keeps_entries).
  assert (forall c, P (snd (_argToLabelVar a l c))) as Hrec
    by (intros c; apply allocator_records).
  destruct l.
  - apply bind_records_first; [exact Hrec | intros i1].
    repeat (apply (bind_keeps P); [apply Hkeep | intro]).
    intros c Hc. exact Hc.
  - apply bind_records_later. intros i1.
    apply bind_records_first; [exact Hrec | intros o1].
    repeat (apply (bind_keeps P); [apply Hkeep | intro]).
    intros c Hc. exact Hc.
  - apply bind_records_later. intros i1.
    apply bind_records_later. intros o1.
    apply bind_records_first; [exact Hrec | intros u1].
    repeat (apply (bind_keeps P); [apply Hkeep | intro]).
    intros c Hc. exact Hc.
Qed.

Lemma generateAll_uniqueness_records a l f args acc c :
  a ∈ args ->
  is_Some (snd (generateAll_loop {| _template := uniqueness_theory |} f
                  args acc c) !! label_key a l).
Proof.
  intros Ha. revert acc c. induction Ha as [a args | a b args _ IH];
    intros acc c; simpl.
  - apply bind_records_first; [apply uniqueness_theory_records |].
    intros new.
    apply (generateAll_loop_keeps
             (fun c => is_Some (c !! label_key a l))).
    intros b c'.
    apply (uniqueness_theory_keeps (fun c => is_Some (c !! label_key a l))).
    intros b' l' c0. apply allocator_keeps_entries.
  - apply bind_records_later. intros new. apply IH.
Qed.

Lemma parse_loop_records (k : string) th ths f args n acc :
  (forall acc c, is_Some (snd (generateAll_loop th f args acc c) !! k)) ->
  Forall (fun th => forall a c, is_Some (c !! k) ->
                    is_Some (snd (_template th a f c) !! k)) ths ->
  forall c, is_Some (snd (parse_loop (th :: ths) f args n acc c) !! k).
Proof.
  intros Hfirst Hrest.
  change (parse_loop (th :: ths) f args n acc)
    with (bind (generateAll th args f)
            (fun new => parse_loop ths f args
                          (n + Z.of_nat (length new)) (acc ++ new))).
  apply bind_records_first; [intros c; apply Hfirst |].
  intros new. apply (parse_loop_keeps (fun c => is_Some (c !! k))), Hrest.
Qed.

(** X7: a run of [parse] with the ruleset of the complete semantics
    leaves a memo table that is again reachable, that keeps every entry it
    had, and that holds, for every argument of the framework and every
    label, the variable of the pair under its key. *)
Theorem memo_after_parse (f : Framework) (c : gmap string Z) :
  reachable c ->
  let c' := snd (parse CompleteLabelingDIMACSParser f c) in
  reachable c'
  /\ c ⊆ c'
  /\ (forall a l, a ∈ getArguments f ->
        c' !! label_key a l = Some (var a l)).
Proof.
  intros Hc c'. split; [| split].
  - apply (parse_complete_keeps reachable); [| exact Hc].
    intros a l c0. apply reachable_call.
  - apply (parse_complete_keeps (fun c0 => c ⊆ c0)); [| reflexivity].
    intros a l c0 H. etransitivity; [exact H | apply argToLabelVar_grows].
  - intros a l Ha.
    assert (memo_sound c') as Hs
      by exact (proj2 (parse_complete_computes f c (reachable_sound c Hc))).
    assert (is_Some (c' !! label_key a l)) as [v Hv].
    { unfold c', parse. apply bind_records_first; [| auto].
      pose proof (complete_theories_keep
        (fun c => is_Some (c !! label_key a l))
        (fun b l' => allocator_keeps_entries (label_key a l) b l') f) as H.
      change (_theories CompleteLabelingDIMACSParser)
        with ({| _template := uniqueness_theory |}
              :: fromTemplates [in_complete_1; in_complete_2;
                                out_complete_1; out_complete_2]) in *.
      apply parse_loop_records.
      - intros acc c0. apply generateAll_uniqueness_records, Ha.
      - inversion H; assumption. }
    rewrite Hv. f_equal. exact (Hs a l v Hv).
Qed.

Lemma memo_after_parse_witness :
  snd (parse CompleteLabelingDIMACSParser two_args ∅)
    !! label_key 2 Label.Und = Some (var 2 Label.Und).
Proof.
  refine (proj2 (proj2 (memo_after_parse two_args ∅ reachable_init))
            2 Label.Und _).
  right; left.
Defined.

(** ** The encoded problem, further *)

Lemma var_bounds x l N : 1 <= x <= N -> 1 <= var x l <= 3 * N.
Proof. unfold var. destruct l; simpl; lia. Qed.

(** X8: when the ids of a framework run from 1 to [len(framework)], every
    literal of every clause [parse] collects with the ruleset of the
    complete semantics is a variable of the header or its negation: it is
    not 0, which would end the clause line early, and its absolute value is
    at most the variable count of the header. *)
Theorem literals_within_header
    (f : Framework) (c : gmap string Z) (clause : list Z) (lit : Z) :
  reachable c -> dense_ids f ->
  clause ∈ snd (fst (parse_loop (_theories CompleteLabelingDIMACSParser) f
                       (getArguments f) 0 [] c)) ->
  lit ∈ clause ->
  lit <> 0
  /\ Z.abs lit
     <= _vars (_header (fst (parse CompleteLabelingDIMACSParser f c))).
Proof.
  intros Hc Hd Hcl Hlit. apply reachable_sound in Hc.
  destruct (parse_loop_computes f _ _ (getArguments f) 0 []
              (complete_theories_computed f) c Hc) as [E _].
  rewrite E in Hcl. change (clause ∈ complete_clauses f) in Hcl.
  destruct (parse_complete_computes f c Hc) as [-> _]. simpl.
  unfold Label.len. unfold complete_clauses in Hcl.
  apply (elem_of_all_clauses _ f clause) in Hcl as [p [a [Hp [Ha Hcl]]]].
  destruct (Hd a Ha) as [Hin [Hatt Hby]].
  pose proof (var_bounds a Label.In _ Hin).
  pose proof (var_bounds a Label.Out _ Hin).
  pose proof (var_bounds a Label.Und _ Hin).
  assert (forall b, b ∈ getAttackers f a ->
            1 <= var b Label.In <= 3 * framework_len f
            /\ 1 <= var b Label.Out <= 3 * framework_len f) as Hb1
    by (intros b Hb; split; apply var_bounds, Hatt, Hb).
  assert (forall b, b ∈ getAttackedBy f a ->
            1 <= var b Label.Out <= 3 * framework_len f) as Hb2
    by (intros b Hb; apply var_bounds, Hby, Hb).
  repeat (apply elem_of_cons in Hp as [-> | Hp]).
  - unfold uniqueness_clauses in Hcl.
    repeat (apply elem_of_cons in Hcl as [-> | Hcl]);
      [.. | apply elem_of_nil in Hcl; contradiction];
      repeat (apply elem_of_cons in Hlit as [-> | Hlit]);
      try (apply elem_of_nil in Hlit; contradiction); lia.
  - apply list_elem_of_singleton in Hcl as ->.
    apply elem_of_app in Hlit as [Hlit | Hlit].
    + apply list_elem_of_fmap in Hlit as [b [-> Hb]].
      destruct (Hb1 b Hb). lia.
    + apply list_elem_of_singleton in Hlit as ->. lia.
  - apply list_elem_of_fmap in Hcl as [b [-> Hb]]. specialize (Hb2 b Hb).
    repeat (apply elem_of_cons in Hlit as [-> | Hlit]);
      try (apply elem_of_nil in Hlit; contradiction); lia.
  - apply list_elem_of_fmap in Hcl as [b [-> Hb]]. destruct (Hb1 b Hb).
    repeat (apply elem_of_cons in Hlit as [-> | Hlit]);
      try (apply elem_of_nil in Hlit; contradiction); lia.
  - apply list_elem_of_singleton in Hcl as ->.
    apply elem_of_app in Hlit as [Hlit | Hlit].
    + apply list_elem_of_fmap in Hlit as [b [-> Hb]].
      destruct (Hb1 b Hb). lia.
    + apply list_elem_of_singleton in Hlit as ->. lia.
  - apply elem_of_nil in Hp. contradiction.
Qed.

Lemma two_args_dense : dense_ids two_args.
Proof.
  intros a Ha. apply list_elem_of_In in Ha. simpl in Ha.
  split; [simpl; lia |]. simpl.
  split; intros b Hb; [destruct (a =? 2) | destruct (a =? 1)];
    apply list_elem_of_In in Hb; simpl in Hb; lia.
Qed.

Lemma literals_within_header_witness :
  -5 <> 0 /\ Z.abs (-5) <= 6.
Proof.
  refine (literals_within_header two_args ∅ [1; -5] (-5)
            reachable_init two_args_dense _ _).
  - do 13 right. left.
  - right. left.
Defined.

(** X9: whatever the theories of a parser are, the clause count in the
    header of the problem [parse] returns is the number of clauses it
    serialised, the body is [parseCNFTheory] of these clauses, and the
    variable count is three times [len(framework)]. *)
Theorem parse_header_counts_clauses
    (self : DIMACSParser) (f : Framework) (c : gmap string Z) :
  let raw :=
    snd (fst (parse_loop (_theories self) f (getArguments f) 0 [] c)) in
  let problem := fst (parse self f c) in
  _clauses (_header problem) = Z.of_nat (length raw)
  /\ _vars (_header problem) = framework_len f * 3
  /\ _content problem = parseCNFTheory raw.
Proof.
  intros raw problem. unfold problem, parse, bind.
  pose proof (parse_loop_count (_theories self) f (getArguments f) 0 [] c)
    as Hn. fold raw in Hn. subst raw.
  destruct (parse_loop (_theories self) f (getArguments f) 0 [] c)
    as [[n raw] c']; simpl in *.
  repeat split. lia.
Qed.

(** X10: when [parse] serialises at least one clause, the text of the
    problem is the header line followed by one line per clause, each
    ended by a line feed. *)
Theorem parse_text_one_line_per_clause
    (self : DIMACSParser) (f : Framework) (c : gmap string Z) :
  let raw :=
    snd (fst (parse_loop (_theories self) f (getArguments f) 0 [] c)) in
  raw <> [] ->
  DIMACSInput_str (fst (parse self f c))
  = "p cnf " +:+ str_int (framework_len f * 3) +:+ " "
    +:+ str_int (Z.of_nat (length raw)) +:+ newline +:+ body_lines raw.
Proof. apply parse_text_lines. Qed.

Lemma parse_text_witness :
  DIMACSInput_str (fst (parse {| _theories := fromTemplates [in_complete_1] |}
                          two_args ∅))
  = "p cnf " +:+ str_int (2 * 3) +:+ " " +:+ str_int 2 +:+ newline
    +:+ body_lines [[1]; [-2; 4]].
Proof.
  refine (parse_text_one_line_per_clause
            {| _theories := fromTemplates [in_complete_1] |} two_args ∅ _).
  vm_compute. discriminate.
Defined.

Lemma string_app_nil_r (s : string) : s +:+ "" = s.
Proof.
  induction s as [|ch s IH]; [reflexivity |].
  change (String ch (s +:+ "") = String ch s). f_equal. exact IH.
Qed.

Lemma addClauses_lines (theory : TheoryRepresentation) v n s :
  addClauses (DIMACSInput_init v n s)
    ((fun clause => clause_line clause +:+ newline) <$> theory)
  = DIMACSInput_init v (n + Z.of_nat (length theory))
      (s +:+ body_lines theory).
Proof.
  revert n s. induction theory as [|cl theory IH]; intros n s.
  - unfold addClauses. simpl. rewrite Z.add_0_r, string_app_nil_r.
    reflexivity.
  - change (addClauses (DIMACSInput_init v n s)
              ((fun clause => clause_line clause +:+ newline)
                 <$> cl :: theory))
      with (addClauses
              (DIMACSInput_init v (n + 1)
                 (s +:+ clause_line cl +:+ newline))
              ((fun clause => clause_line clause +:+ newline) <$> theory)).
    rewrite IH. unfold DIMACSInput_init. f_equal.
    + f_equal. simpl length. lia.
    + simpl body_lines. rewrite !string_app_assoc. reflexivity.
Qed.

(** X11: adding the lines of one or more clauses one after the other with
    [addClause], to a problem that starts with no clause, gives the very
    problem [parse] assembles in one go: the same clause count and the
    same body. *)
Theorem addClause_builds_what_parse_builds
    (theory : TheoryRepresentation) (num_of_vars : Z) :
  theory <> [] ->
  addClauses (DIMACSInput_init num_of_vars 0 "")
    ((fun clause => clause_line clause +:+ newline) <$> theory)
  = DIMACSInput_init num_of_vars (Z.of_nat (length theory))
      (parseCNFTheory theory).
Proof.
  intros Hne. rewrite addClauses_lines, (parseCNFTheory_lines theory Hne).
  reflexivity.
Qed.

Lemma addClause_builds_witness :
  addClauses (DIMACSInput_init 6 0 "")
    ((fun clause => clause_line clause +:+ newline) <$> [[1]; [-1; 5]])
  = DIMACSInput_init 6 2 (parseCNFTheory [[1]; [-1; 5]]).
Proof.
  refine (addClause_builds_what_parse_builds [[1]; [-1; 5]] 6 _).
  discriminate.
Defined.

Lemma generateAll_loop_acc self f args acc c :
  generateAll_loop self f args acc c
  = (acc ++ fst (generateAll_loop self f args [] c),
     snd (generateAll_loop self f args [] c)).
Proof.
  revert acc c. induction args as [|a args IH]; intros acc c; simpl.
  - unfold ret. rewrite app_nil_r. reflexivity.
  - unfold bind. destruct (generate self a f c) as [new c'].
    rewrite (IH (acc ++ new)), (IH ([] ++ new)). simpl.
    rewrite app_assoc. reflexivity.
Qed.

Lemma generateAll_loop_app self f xs ys acc c :
  generateAll_loop self f (xs ++ ys) acc c
  = generateAll_loop self f ys
      (fst (generateAll_loop self f xs acc c))
      (snd (generateAll_loop self f xs acc c)).
Proof.
  revert acc c. induction xs as [|a xs IH]; intros acc c; simpl.
  - reflexivity.
  - unfold bind. destruct (generate self a f c) as [new c']. apply IH.
Qed.

(** X12: [generateAll] over no argument yields no clause and leaves the
    memo table alone, and over two lists of arguments in a row it yields
    the clauses of the first list followed by those of the second, the
    second run starting on the memo table the first one left. *)
Theorem generateAll_concatenates
    (self : CNFTheory) (f : Framework) (xs ys : list Z) (c : gmap string Z) :
  generateAll self [] f c = ([], c)
  /\ generateAll self (xs ++ ys) f c
     = (fst (generateAll self xs f c)
        ++ fst (generateAll self ys f (snd (generateAll self xs f c))),
        snd (generateAll self ys f (snd (generateAll self xs f c)))).
Proof.
  split; [reflexivity |]. unfold generateAll.
  rewrite generateAll_loop_app.
  apply (generateAll_loop_acc self f ys).
Qed.

(** ** Writing integers and reading them back *)

Lemma digit_of_char d :
  (d < 10)%N -> digit_of (pretty_N_char d) = Some (Z.of_N d).
Proof.
  intros H.
  assert (d = 0 \/ d = 1 \/ d = 2 \/ d = 3 \/ d = 4 \/ d = 5 \/ d = 6
          \/ d = 7 \/ d = 8 \/ d = 9)%N as Hd by lia.
  repeat (destruct Hd as [-> | Hd]); try reflexivity.
  subst d. reflexivity.
Qed.

Lemma digits_cons ch d s acc b :
  digit_of ch = Some d -> digits (String ch s) acc b = digits s (10 * acc + d) true.
Proof. intros H. simpl. rewrite H. reflexivity. Qed.

Lemma digits_pretty_N_go x s b :
  (0 < x)%N -> digits (pretty_N_go x s) 0 b = digits s (Z.of_N x) true.
Proof.
  revert s b. induction (N.lt_wf_0 x) as [x _ IH]. intros s b Hx.
  rewrite pretty_N_go_step by exact Hx.
  pose proof (N.mod_lt x 10 ltac:(lia)) as Hmod.
  pose proof (N.div_mod x 10 ltac:(lia)) as Hdiv.
  destruct (N.eq_dec (x / 10) 0) as [E | E].
  - rewrite E, pretty_N_go_0, (digits_cons _ _ _ _ _ (digit_of_char _ Hmod)).
    f_equal. lia.
  - rewrite IH by (try apply N.div_lt; lia).
    rewrite (digits_cons _ _ _ _ _ (digit_of_char _ Hmod)).
    f_equal. lia.
Qed.

Lemma all_chars_pretty_N_go (p : ascii -> bool) x s :
  (forall d, (d < 10)%N -> p (pretty_N_char d) = true) ->
  all_chars p s = true -> all_chars p (pretty_N_go x s) = true.
Proof.
  intros Hp. revert s. induction (N.lt_wf_0 x) as [x _ IH]. intros s Hs.
  destruct (N.eq_dec x 0) as [-> | Hx]; [rewrite pretty_N_go_0; exact Hs |].
  rewrite pretty_N_go_step by lia.
  apply IH; [apply N.div_lt; lia |].
  simpl. rewrite Hs, Hp by (apply N.mod_lt; lia). reflexivity.
Qed.

Lemma all_chars_impl (p q : ascii -> bool) s :
  (forall ch, p ch = true -> q ch = true) ->
  all_chars p s = true -> all_chars q s = true.
Proof.
  intros Hpq. induction s as [|ch s IH]; simpl; [auto |].
  rewrite !andb_true_iff. intros [H1 H2]. auto.
Qed.

Lemma digit_char_is_digit d : (d < 10)%N -> is_digit (pretty_N_char d) = true.
Proof. intros H. unfold is_digit. rewrite (digit_of_char d H). reflexivity. Qed.

Lemma digit_not_blank ch : is_digit ch = true -> not_blank ch = true.
Proof.
  destruct ch as [[] [] [] [] [] [] [] []]; vm_compute;
    intros H; try reflexivity; discriminate H.
Qed.

Lemma digit_not_space ch :
  is_digit ch = true -> negb (Ascii.eqb ch " ") = true.
Proof.
  destruct ch as [[] [] [] [] [] [] [] []]; vm_compute;
    intros H; try reflexivity; discriminate H.
Qed.

Lemma lstrip_head ch s :
  not_blank ch = true -> lstrip (String ch s) = String ch s.
Proof.
  unfold not_blank. intros H. apply negb_true_iff in H. simpl.
  rewrite H. reflexivity.
Qed.

Lemma rstrip_not_blank s : all_chars not_blank s = true -> rstrip s = s.
Proof.
  induction s as [|ch s IH]; simpl; [reflexivity |].
  rewrite andb_true_iff. intros [Hch Hs]. rewrite (IH Hs).
  unfold not_blank in Hch. apply negb_true_iff in Hch.
  destruct s; [rewrite Hch |]; reflexivity.
Qed.

(** A text that starts with a digit and holds no blank is read without
    a sign. *)
Lemma py_int_unsigned ch s :
  is_digit ch = true -> all_chars not_blank (String ch s) = true ->
  py_int (String ch s) = digits (String ch s) 0 false.
Proof.
  intros Hd Hall. unfold py_int.
  rewrite lstrip_head by (apply digit_not_blank, Hd).
  rewrite rstrip_not_blank by exact Hall.
  destruct ch as [[] [] [] [] [] [] [] []]; try reflexivity;
    vm_compute in Hd; discriminate Hd.
Qed.

Lemma py_int_positive p : py_int (pretty (N.pos p)) = Some (Z.pos p).
Proof.
  unfold pretty, pretty_N. destruct (decide (N.pos p = 0%N)) as [E | _];
    [discriminate E |].
  pose proof (digits_pretty_N_go (N.pos p) "" false ltac:(lia)) as Hd.
  pose proof (all_chars_pretty_N_go is_digit (N.pos p) ""
                digit_char_is_digit eq_refl) as Hall.
  destruct (pretty_N_go (N.pos p) "") as [|ch s].
  - discriminate Hd.
  - rewrite py_int_unsigned.
    + exact Hd.
    + simpl in Hall. apply andb_true_iff in Hall. tauto.
    + apply (all_chars_impl is_digit); [apply digit_not_blank | exact Hall].
Qed.

Lemma py_int_pretty_all_digits p :
  all_chars is_digit (pretty (N.pos p)) = true.
Proof.
  unfold pretty, pretty_N. destruct (decide (N.pos p = 0%N)) as [E | _];
    [discriminate E |].
  apply all_chars_pretty_N_go; [apply digit_char_is_digit | reflexivity].
Qed.

(** [int(str(z))] is [z]. *)
Lemma py_int_str_int z : py_int (str_int z) = Some z.
Proof.
  destruct z as [|p|p].
  - reflexivity.
  - apply py_int_positive.
  - change (str_int (Z.neg p)) with (String "-" (pretty (N.pos p))).
    pose proof (py_int_positive p) as Hp.
    pose proof (py_int_pretty_all_digits p) as Hall.
    pose proof (all_chars_impl is_digit not_blank _ digit_not_blank Hall)
      as Hnb.
    unfold py_int in *.
    rewrite lstrip_head by reflexivity.
    rewrite rstrip_not_blank by (simpl; rewrite Hnb; reflexivity).
    destruct (pretty (N.pos p)) as [|ch s] eqn:E; [discriminate Hp |].
    simpl in Hall. apply andb_true_iff in Hall as [Hch _].
    rewrite lstrip_head in Hp by (apply digit_not_blank, Hch).
    rewrite rstrip_not_blank in Hp by exact Hnb.
    assert (digits (String ch s) 0 false = Some (Z.pos p)) as ->.
    { destruct ch as [[] [] [] [] [] [] [] []]; try exact Hp;
        vm_compute in Hch; discriminate Hch. }
    reflexivity.
Qed.

Lemma str_int_no_space z : no_space (str_int z) = true.
Proof.
  unfold no_space. destruct z as [|p|p].
  - reflexivity.
  - apply (all_chars_impl is_digit); [apply digit_not_space |].
    apply py_int_pretty_all_digits.
  - change (str_int (Z.neg p)) with (String "-" (pretty (N.pos p))).
    simpl. apply (all_chars_impl is_digit); [apply digit_not_space |].
    apply py_int_pretty_all_digits.
Qed.

(** ** Cutting a line that was joined *)

Lemma split_space_no_space s : no_space s = true -> split_space s = [s].
Proof.
  unfold no_space. induction s as [|ch s IH]; simpl; [reflexivity |].
  rewrite andb_true_iff, negb_true_iff. intros [Hch Hs].
  rewrite Hch, (IH Hs). reflexivity.
Qed.

Lemma split_space_app s r :
  no_space s = true -> split_space (s +:+ " " +:+ r) = s :: split_space r.
Proof.
  unfold no_space. induction s as [|ch s IH]; simpl.
  - intros _. reflexivity.
  - rewrite andb_true_iff, negb_true_iff. intros [Hch Hs].
    change (String ch s +:+ " " +:+ r) with (String ch (s +:+ " " +:+ r)).
    simpl. rewrite Hch, (IH Hs). reflexivity.
Qed.

Lemma split_space_join toks last :
  toks <> [] -> Forall (fun t => no_space t = true) toks ->
  no_space last = true ->
  split_space (join " " toks +:+ " " +:+ last) = toks ++ [last].
Proof.
  intros Hne Hall Hlast. induction Hall as [|t toks Ht Hall IH];
    [congruence |].
  destruct toks as [|t' toks].
  - simpl join. rewrite (split_space_app t last Ht),
      (split_space_no_space last Hlast). reflexivity.
  - change (join " " (t :: t' :: toks))
      with (t +:+ " " +:+ join " " (t' :: toks)).
    rewrite !string_app_assoc, (split_space_app t _ Ht), IH by congruence.
    reflexivity.
Qed.

Lemma read_written_integers model :
  Forall2 (fun tok z => py_int tok = Some z) (str_int <$> model) model.
Proof.
  induction model as [|z model IH]; csimpl; [apply List.Forall2_nil |].
  apply List.Forall2_cons; [apply py_int_str_int | exact IH].
Qed.

(** What the decoders see of a line made of a status marker and a clause
    line of the encoder. *)
Lemma read_model_clause_line status model :
  no_space status = true -> model <> [] ->
  read_model (status +:+ " " +:+ clause_line model) = Ok model.
Proof.
  intros Hst Hne. apply read_model_Ok.
  unfold clause_line. change " 0" with (" " +:+ "0").
  rewrite (split_space_app status _ Hst), split_space_join.
  - rewrite slice_1_m1_middle. apply read_written_integers.
  - destruct model; [congruence | discriminate].
  - apply Forall_fmap, Forall_forall. intros z _. apply str_int_no_space.
  - reflexivity.
Qed.

(** ** The decoders, further *)

(** X13: a line that [split(' ')] cuts into at most two tokens (no space,
    or a single one) decodes to the empty list with both decoders, without
    an error, whatever the tokens are. *)
Theorem short_line_decodes_to_nothing (out : string) :
  (length (split_space out) <= 2)%nat ->
  extractExtention out = Ok [] /\ extractLabeling out = Ok [].
Proof.
  intros Hlen. unfold extractExtention, extractLabeling, read_model.
  assert (slice_1_m1 (split_space out) = []) as ->.
  { unfold slice_1_m1. destruct (split_space out) as [|t1 [|t2 [|t3 ts]]];
      simpl in *; try reflexivity; lia. }
  split; reflexivity.
Qed.

Lemma short_line_witness :
  extractExtention "s UNSATISFIABLE" = Ok []
  /\ extractLabeling "s UNSATISFIABLE" = Ok [].
Proof.
  apply (short_line_decodes_to_nothing "s UNSATISFIABLE").
  vm_compute. lia.
Defined.

Lemma filter_and_sublist {A} (p q : A -> bool) (l : list A) :
  List.filter (fun x => p x && q x) l `sublist_of` List.filter p l.
Proof.
  induction l as [|x l IH]; simpl; [constructor |].
  destruct (p x), (q x); simpl; try exact IH.
  - apply sublist_skip; [exact IH].
  - apply sublist_cons, IH.
Qed.

(** X14: the two decoders fail on the same lines; where they succeed, the
    result of [extractExtention] is a subsequence of the result of
    [extractLabeling], which holds positive integers only. *)
Theorem extension_within_labeling (out : string) (ext lab : list Z) :
  extractExtention out = Ok ext -> extractLabeling out = Ok lab ->
  ext `sublist_of` lab /\ Forall (fun v => 0 < v) lab.
Proof.
  unfold extractExtention, extractLabeling.
  destruct (read_model out) as [model | e]; [| discriminate].
  intros [= <-] [= <-]. split.
  - apply (filter_and_sublist (fun v => 0 <? v)).
  - apply Forall_forall. intros v Hv.
    apply list_elem_of_In, filter_In in Hv as [_ Hv].
    apply Z.ltb_lt, Hv.
Qed.

Lemma extension_within_labeling_witness :
  [1] `sublist_of` [1; 5].
Proof.
  exact (proj1 (extension_within_labeling "v 1 -2 -3 -4 5 -6 0" [1] [1; 5]
                  eq_refl eq_refl)).
Defined.

(** One decoder raises exactly when the other does. *)
Lemma decoders_raise_together (out : string) (e : exn) :
  extractExtention out = Raise e <-> extractLabeling out = Raise e.
Proof.
  unfold extractExtention, extractLabeling.
  destruct (read_model out) as [model | e']; split; intros H;
    try discriminate H; exact H.
Qed.

(** X15: a line made of a status marker without spaces, a space, and a
    non-empty clause written the way [parseCNFTheory] writes a clause
    line, is read back by [extractLabeling] as the positive literals of
    the clause, in order. *)
Theorem labeling_of_written_line (status : string) (model : list Z) :
  no_space status = true -> model <> [] ->
  extractLabeling (status +:+ " " +:+ clause_line model)
  = Ok (List.filter (fun x => 0 <? x) model).
Proof.
  intros Hst Hne. unfold extractLabeling.
  rewrite (read_model_clause_line status model Hst Hne). reflexivity.
Qed.

Lemma labeling_of_written_line_witness :
  extractLabeling ("v" +:+ " " +:+ clause_line [1; -2; -3; -4; 5; -6])
  = Ok (List.filter (fun x => 0 <? x) [1; -2; -3; -4; 5; -6]).
Proof.
  apply (labeling_of_written_line "v" [1; -2; -3; -4; 5; -6]).
  - reflexivity.
  - discriminate.
Defined.

(** A clause without literals is written as a line that starts with a
    space; read back as a solver line it has an empty token and raises. *)
Example empty_model_line_raises :
  extractLabeling ("v" +:+ " " +:+ clause_line []) = Raise ValueError.
Proof. reflexivity. Qed.

(** *** From a labelling to its extension *)

Lemma is_In_var_var a l :
  is_In_var (var a l) = bool_decide (l = Label.In).
Proof.
  unfold is_In_var, var. simpl Label.value.
  replace (3 * (a - 1) + Label.value l - 1)
    with (Label.value l - 1 + (a - 1) * 3) by lia.
  rewrite Z_mod_plus_full. destruct l; reflexivity.
Qed.

Lemma length_model_of lab args :
  length (model_of lab args) = (3 * length args)%nat.
Proof.
  unfold model_of. induction args as [|a args IH]; csimpl; [reflexivity |].
  rewrite IH. lia.
Qed.

Lemma model_of_cons lab a args :
  model_of lab (a :: args)
  = [signed (bool_decide (lab a = Label.In)) (var a Label.In);
     signed (bool_decide (lab a = Label.Out)) (var a Label.Out);
     signed (bool_decide (lab a = Label.Und)) (var a Label.Und)]
    ++ model_of lab args.
Proof. reflexivity. Qed.

Lemma positives_of_model lab args :
  (forall a, a ∈ args -> 1 <= a) ->
  List.filter (fun x => 0 <? x) (model_of lab args)
  = (fun a => var a (lab a)) <$> args.
Proof.
  induction args as [|a args IH]; intros Hpos; [reflexivity |].
  rewrite model_of_cons, List.filter_app, IH
    by (intros b Hb; apply Hpos; right; exact Hb).
  assert (1 <= a) as Ha by (apply Hpos; left).
  pose proof (var_positive a Label.In Ha).
  pose proof (var_positive a Label.Out Ha).
  pose proof (var_positive a Label.Und Ha).
  csimpl. f_equal.
  destruct (lab a); simpl;
    repeat match goal with
    | |- context [0 <? ?x] =>
        first [ rewrite (proj2 (Z.ltb_lt 0 x)) by lia
              | rewrite (proj2 (Z.ltb_ge 0 x)) by lia ]
    end; reflexivity.
Qed.

Lemma In_variables_of_model lab args M :
  (forall a, a ∈ args -> 1 <= a /\ var a Label.In < M) ->
  List.filter (fun v => (0 <? v) && is_In_var v && (v <? M))
    (model_of lab args)
  = (fun a => var a Label.In)
      <$> List.filter (fun a => bool_decide (lab a = Label.In)) args.
Proof.
  induction args as [|a args IH]; intros Hin; [reflexivity |].
  rewrite model_of_cons, List.filter_app, IH
    by (intros b Hb; apply Hin; right; exact Hb).
  destruct (Hin a ltac:(left)) as [Ha HM].
  pose proof (var_positive a Label.In Ha).
  pose proof (var_positive a Label.Out Ha).
  pose proof (var_positive a Label.Und Ha).
  destruct (lab a) eqn:E; simpl; rewrite ?E, ?is_In_var_var; simpl;
    repeat match goal with
    | |- context [0 <? ?x] =>
        first [ rewrite (proj2 (Z.ltb_lt 0 x)) by lia
              | rewrite (proj2 (Z.ltb_ge 0 x)) by lia ]
    end; simpl;
    rewrite ?(proj2 (Z.ltb_lt (var a Label.In) M)) by lia;
    reflexivity.
Qed.

(** X16: take arguments numbered from 1 to their count and any labelling
    of them.  From the answer line that lists the three variables of every
    argument, the one of its label positive and the two others negated,
    [extractLabeling] returns the variable of every argument's label and
    [extractExtention] returns the [In] variables of the arguments
    labelled In, both in the order of the arguments. *)
Theorem labelling_round_trip
    (status : string) (lab : Z -> Label.t) (args : list Z) :
  no_space status = true -> args <> [] ->
  (forall a, a ∈ args -> 1 <= a <= Z.of_nat (length args)) ->
  let line := status +:+ " " +:+ clause_line (model_of lab args) in
  extractLabeling line = Ok ((fun a => var a (lab a)) <$> args)
  /\ extractExtention line
     = Ok ((fun a => var a Label.In)
             <$> List.filter (fun a => bool_decide (lab a = Label.In)) args).
Proof.
  intros Hst Hne Hdense line.
  assert (model_of lab args <> []) as Hm.
  { intros E. apply (f_equal length) in E.
    rewrite length_model_of in E. destruct args; [congruence | discriminate]. }
  pose proof (read_model_clause_line status _ Hst Hm) as Hread.
  fold line in Hread. split.
  - unfold extractLabeling. rewrite Hread. f_equal.
    apply positives_of_model. intros a Ha. apply Hdense, Ha.
  - rewrite (extractExtention_Ok line _ Hread). f_equal.
    apply In_variables_of_model. intros a Ha.
    specialize (Hdense a Ha). rewrite length_model_of.
    split; [lia |]. unfold var. simpl. lia.
Qed.

Lemma labelling_round_trip_witness :
  extractExtention
    ("v" +:+ " "
     +:+ clause_line (model_of (fun a => if a =? 1 then Label.In
                                         else Label.Out) [1; 2]))
  = Ok ((fun a => var a Label.In)
          <$> List.filter
                (fun a => bool_decide ((if a =? 1 then Label.In
                                        else Label.Out) = Label.In))
                [1; 2]).
Proof.
  refine (proj2 (labelling_round_trip "v"
                   (fun a => if a =? 1 then Label.In else Label.Out)
                   [1; 2] eq_refl _ _)).
  - discriminate.
  - intros a Ha. apply list_elem_of_In in Ha. simpl in Ha. simpl. lia.
Defined.
